(** * The juju cluster profile of sos collect (sos/collector/clusters/juju.py)

    A shallow embedding of the node discovery of the juju cluster profile:
    the option-string parser, the cleanup of the output of `juju status`,
    the three indexing passes, the two filters and [get_nodes].

    Python strings are modelled as [string] (sequences of code points below
    256); Python dicts that are only written and read by key (the index) as
    stdpp's [gmap string]; the dicts of the parsed status document, which are
    iterated in insertion order, as association lists. Exceptions are the
    constructors of [exn], threaded through a small error monad. *)

From stdpp Require Import base gmap strings list.
From Stdlib Require Import Ascii String.

Local Open Scope string_scope.

(* ===================================================================== *)
(** ** Errors *)
(* ===================================================================== *)

(** The Python exceptions that the modelled code can raise. *)
Inductive exn :=
  | KeyError (key : string)          (** [d[key]] on a missing key *)
  | Exception (msg : string)         (** [raise Exception(msg)] *)
  | ReError (pattern : string)       (** [re.error] from [re.match] *)
  | JSONDecodeError.                 (** [json.loads] on malformed text *)

Inductive result (A : Type) :=
  | Ok (a : A)
  | Err (e : exn).
Arguments Ok {A} a.
Arguments Err {A} e.

Definition ret {A} (a : A) : result A := Ok a.

Definition bind {A B} (m : result A) (k : A -> result B) : result B :=
  match m with
  | Ok a => k a
  | Err e => Err e
  end.

Notation "'let*' x := m 'in' k" := (bind m (fun x => k))
  (at level 200, x name, m at level 100, k at level 200).

(** [d[key]] on an association list (a dict iterated in insertion order). *)
Fixpoint assoc {V} (key : string) (d : list (string * V)) : option V :=
  match d with
  | [] => None
  | (k, v) :: d' => if String.eqb k key then Some v else assoc key d'
  end.

Definition getitem {V} (key : string) (d : list (string * V)) : result V :=
  match assoc key d with
  | Some v => Ok v
  | None => Err (KeyError key)
  end.

(** A present-or-absent field of a JSON object read with [obj["field"]]. *)
Definition field {V} (name : string) (o : option V) : result V :=
  match o with
  | Some v => Ok v
  | None => Err (KeyError name)
  end.

(** A present-or-absent field read with [obj.get("field", default)]. *)
Definition field_get {V} (o : option V) (default : V) : V :=
  match o with
  | Some v => v
  | None => default
  end.

(** A loop [for x in xs: body] whose body may raise. *)
Fixpoint foldM {A S} (body : S -> A -> result S) (xs : list A) (st : S)
  : result S :=
  match xs with
  | [] => Ok st
  | x :: xs' => let* st' := body st x in foldM body xs' st'
  end.

(* ===================================================================== *)
(** ** Strings: [str.split(",")] and [str.strip()] *)
(* ===================================================================== *)

(** [str.isspace()] on the code points below 256: [\t \n \v \f \r],
    the separators [\x1c]-[\x1f], the space, [\x85] and [\xa0]. *)
Definition isspace (c : ascii) : bool :=
  let n := Ascii.nat_of_ascii c in
  (((9 <=? n) && (n <=? 13)) || ((28 <=? n) && (n <=? 32))
   || (n =? 133) || (n =? 160))%nat.

Fixpoint lstrip (s : string) : string :=
  match s with
  | EmptyString => EmptyString
  | String c s' => if isspace c then lstrip s' else s
  end.

Definition rstrip (s : string) : string :=
  string_of_list_ascii
    (rev (list_ascii_of_string (lstrip
       (string_of_list_ascii (rev (list_ascii_of_string s)))))).

(** [s.strip()] *)
Definition strip (s : string) : string := rstrip (lstrip s).

(** [s.split(sep)] for a one-character separator: the pieces between the
    separators, empty pieces included; [""] splits into [[""]]. *)
Fixpoint split (sep : ascii) (s : string) : list string :=
  match s with
  | EmptyString => [EmptyString]
  | String c s' =>
      let parts := split sep s' in
      if Ascii.eqb c sep then EmptyString :: parts
      else match parts with
           | p :: ps => String c p :: ps
           | [] => [String c EmptyString]
           end
  end.

(* ===================================================================== *)
(** ** [_parse_option_string] (juju.py, lines 18-22) *)
(* ===================================================================== *)

(** [if not strings: return []]: [None] and [""] are falsy;
    otherwise [[string.strip() for string in strings.split(",")]]. *)
Definition _parse_option_string (strings : option string) : list string :=
  match strings with
  | None => []
  | Some EmptyString => []
  | Some s => map strip (split ","%char s)
  end.

(* ===================================================================== *)
(** ** [_cleanup_juju_output] (juju.py, lines 50-52) *)
(* ===================================================================== *)

(** [re.sub] with [re.MULTILINE] of the pattern made of group 1, [^[^{]*],
    followed by group 2, [.*], replacing each match by group 2.

    With [re.MULTILINE], [^] matches at the start of the text and after
    every newline. A match starting there takes, greedily, group 1: the
    longest run of characters other than ['{'] (newlines included, since a
    negated class matches them), then group 2: the longest run of characters
    other than a newline (what [.] matches); both always succeed, so the
    first attempt is the match. The match is replaced by group 2. It ends
    either at the end of the text or just before a newline that follows a
    non-empty group 2; that newline is not at a line start, so it is copied
    unchanged and the next match starts right after it.

    The scan is therefore a two-state machine: in [Group1] characters are
    dropped until a ['{'] starts group 2; in [Group2] characters are copied,
    and a newline ends the match, is copied, and starts the next match. *)
Inductive sub_state := Group1 | Group2.

Definition lbrace : ascii := "{"%char.
Definition newline : ascii := "010"%char.

Fixpoint cleanup_scan (st : sub_state) (s : string) : string :=
  match s with
  | EmptyString => EmptyString
  | String c s' =>
      match st with
      | Group1 =>
          if Ascii.eqb c lbrace then String c (cleanup_scan Group2 s')
          else cleanup_scan Group1 s'
      | Group2 =>
          if Ascii.eqb c newline then String c (cleanup_scan Group1 s')
          else String c (cleanup_scan Group2 s')
      end
  end.

Definition _cleanup_juju_output (output : string) : string :=
  cleanup_scan Group1 output.

(* ===================================================================== *)
(** ** The parsed status document and the index *)
(* ===================================================================== *)

(** A unit entry of [juju status --format json]. Each field is [None] when
    the key is absent. Only the keys of ["subordinates"] are read. *)
Record unit_info := {
  machine : option string;
  subordinates : option (list string)
}.

(** An application entry: ["units"] maps unit names to unit entries,
    ["subordinate-to"] lists parent application names. *)
Record app_info := {
  units : option (list (string * unit_info));
  subordinate_to : option (list string)
}.

(** The top-level document; only the keys of ["machines"] are read. *)
Record status := {
  applications : option (list (string * app_info));
  machines : option (list string)
}.

(** [index = collections.defaultdict(dict)], read and written only at the
    keys ["apps"], ["units"] and ["machines"]: one map per category. *)
Record index := {
  idx_apps : gmap string (list string);
  idx_units : gmap string (list string);
  idx_machines : gmap string (list string)
}.

Definition empty_index : index :=
  {| idx_apps := ∅; idx_units := ∅; idx_machines := ∅ |}.

Definition set_apps (m : gmap string (list string)) (i : index) : index :=
  {| idx_apps := m; idx_units := idx_units i; idx_machines := idx_machines i |}.
Definition set_units (m : gmap string (list string)) (i : index) : index :=
  {| idx_apps := idx_apps i; idx_units := m; idx_machines := idx_machines i |}.
Definition set_machines (m : gmap string (list string)) (i : index) : index :=
  {| idx_apps := idx_apps i; idx_units := idx_units i; idx_machines := m |}.

(** [d[key]] on a dict of the index. *)
Definition map_getitem (key : string) (m : gmap string (list string))
  : result (list string) :=
  match m !! key with
  | Some v => Ok v
  | None => Err (KeyError key)
  end.

(** [f"{model_name}:{machine}"] *)
Definition node_of (model_name machine : string) : string :=
  model_name +:+ ":" +:+ machine.

(* ===================================================================== *)
(** ** [_add_principals_to_index] (juju.py, lines 64-76) *)
(* ===================================================================== *)

(** One iteration of [for unit, unit_info in units.items()]. *)
Definition add_principal_unit (model_name : string)
    (st : index * list string) (u : string * unit_info)
    : result (index * list string) :=
  let '(idx, nodes) := st in
  let '(unit, uinfo) := u in
  let* m := field "machine" (machine uinfo) in
  let node := node_of model_name m in
  let idx := set_units (<[unit := [node]]> (idx_units idx)) idx in
  let idx := set_machines (<[m := [node]]> (idx_machines idx)) idx in
  Ok (idx, (nodes ++ [node])%list).

(** One iteration of [for app, app_info in juju_status["applications"]]. *)
Definition add_principal_app (model_name : string)
    (idx : index) (a : string * app_info) : result index :=
  let '(app, ainfo) := a in
  let us := field_get (units ainfo) [] in
  let* st := foldM (add_principal_unit model_name) us (idx, []) in
  let '(idx, nodes) := st in
  Ok (set_apps (<[app := nodes]> (idx_apps idx)) idx).

Definition _add_principals_to_index (idx : index) (juju_status : status)
    (model_name : string) : result index :=
  let* apps := field "applications" (applications juju_status) in
  foldM (add_principal_app model_name) apps idx.

(* ===================================================================== *)
(** ** [_add_subordinates_to_index] (juju.py, lines 78-92) *)
(* ===================================================================== *)

(** [if sub_key.startswith(app + "/"): index["units"][sub_key] = [node]] *)
Definition add_subordinate_key (app node : string) (idx : index)
    (sub_key : string) : index :=
  if String.prefix (app +:+ "/") sub_key
  then set_units (<[sub_key := [node]]> (idx_units idx)) idx
  else idx.

(** One iteration of [for unit, unit_info in units.items()] over the
    parent's units. *)
Definition add_subordinate_unit (model_name app : string) (idx : index)
    (u : string * unit_info) : result index :=
  let '(_, uinfo) := u in
  let* m := field "machine" (machine uinfo) in
  let node := node_of model_name m in
  Ok (fold_left (add_subordinate_key app node)
        (field_get (subordinates uinfo) []) idx).

(** One iteration of [for parent in subordinate_to]:
    [index["apps"][app].extend(index["apps"][parent])], then the loop over
    [juju_status["applications"][parent]["units"]]. *)
Definition add_subordinate_parent (apps : list (string * app_info))
    (model_name app : string) (idx : index) (parent : string)
    : result index :=
  let* app_nodes := map_getitem app (idx_apps idx) in
  let* parent_nodes := map_getitem parent (idx_apps idx) in
  let idx := set_apps (<[app := (app_nodes ++ parent_nodes)%list]> (idx_apps idx)) idx in
  let* pinfo := getitem parent apps in
  let* us := field "units" (units pinfo) in
  foldM (add_subordinate_unit model_name app) us idx.

Definition add_subordinate_app (apps : list (string * app_info))
    (model_name : string) (idx : index) (a : string * app_info)
    : result index :=
  let '(app, ainfo) := a in
  foldM (add_subordinate_parent apps model_name app)
    (field_get (subordinate_to ainfo) []) idx.

Definition _add_subordinates_to_index (idx : index) (juju_status : status)
    (model_name : string) : result index :=
  let* apps := field "applications" (applications juju_status) in
  foldM (add_subordinate_app apps model_name) apps idx.

(* ===================================================================== *)
(** ** [_add_machines_to_index] (juju.py, lines 93-100) *)
(* ===================================================================== *)

Definition add_machine (model_name : string) (idx : index) (m : string)
    : index :=
  set_machines (<[m := [node_of model_name m]]> (idx_machines idx)) idx.

Definition _add_machines_to_index (idx : index) (juju_status : status)
    (model_name : string) : result index :=
  let* ms := field "machines" (machines juju_status) in
  Ok (fold_left (add_machine model_name) ms idx).

(** The three passes of [_get_model_info] (lines 57-62), in order, on a
    fresh index. *)
Definition build_index (model_name : string) (juju_status : status)
    : result index :=
  let* idx := _add_principals_to_index empty_index juju_status model_name in
  let* idx := _add_subordinates_to_index idx juju_status model_name in
  _add_machines_to_index idx juju_status model_name.

(* ===================================================================== *)
(** ** [_filter_by_pattern] and [_filter_by_fixed] (juju.py, lines 116-132) *)
(* ===================================================================== *)

(** The keys of the [filters] dict and of the index. *)
Inductive category := Apps | Units | Machines.

(** [model_info[key]] *)
Definition category_map (key : category) (model_info : index)
  : gmap string (list string) :=
  match key with
  | Apps => idx_apps model_info
  | Units => idx_units model_info
  | Machines => idx_machines model_info
  end.

(** [re.match] is Python's [re] module, outside this repository: the
    filters take it as a parameter, [re_match pattern s] being [Ok true]
    when [re.match(pattern, s)] returns a match, [Ok false] when it returns
    [None], and [Err e] when it raises [e] ([re.error] for a pattern that
    does not compile). *)
Section Filters.
Variable re_match : string -> string -> result bool.

(** [nodes = set()]; for each pattern and each [(param, value)] of
    [model_info[key].items()], [if re.match(pattern, param):
    nodes.update(value or [])]. The result is a set, so the iteration
    order of the dict does not matter. *)
Definition pattern_update (pattern : string) (nodes : gset string)
    (pv : string * list string) : result (gset string) :=
  let* b := re_match pattern (fst pv) in
  Ok (if b then nodes ∪ list_to_set (snd pv) else nodes).

Definition _filter_by_pattern (key : category) (patterns : list string)
    (model_info : index) : result (gset string) :=
  foldM (fun nodes pattern =>
           foldM (pattern_update pattern)
                 (map_to_list (category_map key model_info)) nodes)
        patterns ∅.

(** The same loop with [if pattern == param]. *)
Definition fixed_update (pattern : string) (nodes : gset string)
    (pv : string * list string) : gset string :=
  if String.eqb pattern (fst pv) then nodes ∪ list_to_set (snd pv)
  else nodes.

Definition _filter_by_fixed (key : category) (patterns : list string)
    (model_info : index) : gset string :=
  fold_left (fun nodes pattern =>
               fold_left (fixed_update pattern)
                         (map_to_list (category_map key model_info)) nodes)
            patterns ∅.

End Filters.

(* ===================================================================== *)
(** ** [_execute_juju_status], [_get_model_info], [get_nodes] *)
(* ===================================================================== *)

(** The dict returned by [exec_primary_cmd]: [res["status"]] and
    [res["output"]]. *)
Record exec_result := { res_status : Z; res_output : string }.

(** [cmd = "juju"] *)
Definition cmd : string := "juju".

(** [status_cmd = f"{self.cmd} status {model_option} {format_option}"] with
    [model_option = f"-m {model_name}" if model_name else ""] and
    [format_option = "--format json"]. *)
Definition status_cmd (model_name : string) : string :=
  let model_option :=
    match model_name with EmptyString => "" | _ => "-m " +:+ model_name end in
  let format_option := "--format json" in
  cmd +:+ " status " +:+ model_option +:+ " " +:+ format_option.

(** The message of the exception raised on a non-zero exit status. *)
Definition failure_message (model_name : string) : string :=
  status_cmd model_name +:+ " did not return usable output".

Section Collector.

(** The command runner of the cluster ([self.exec_primary_cmd]),
    [json.loads] and [re.match]: collaborators outside this file. *)
Variable exec_primary_cmd : string -> exec_result.
Variable json_loads : string -> result status.
Variable re_match : string -> string -> result bool.

Definition _execute_juju_status (model_name : string) : result status :=
  let res := exec_primary_cmd (status_cmd model_name) in
  if Z.eqb (res_status res) 0
  then json_loads (_cleanup_juju_output (res_output res))
  else Err (Exception (failure_message model_name)).

Definition _get_model_info (model_name : string) : result index :=
  let* juju_status := _execute_juju_status model_name in
  build_index model_name juju_status.

(** One iteration of [for key, resource in filters.items()]. *)
Definition filter_step (model_info : index) (nodes : gset string)
    (kr : category * list string) : result (gset string) :=
  let '(key, resource) := kr in
  let* _nodes :=
    match key with
    | Apps => _filter_by_pattern re_match key resource model_info
    | _ => Ok (_filter_by_fixed key resource model_info)
    end in
  Ok (nodes ∪ _nodes).

(** [any(filters.values())]: a list is truthy iff it is not empty. *)
Definition any_filter (filters : list (category * list string)) : bool :=
  existsb (fun kr => match snd kr with [] => false | _ => true end) filters.

(** One iteration of [for model in models]. *)
Definition model_step (filters : list (category * list string))
    (nodes : gset string) (model : string) : result (gset string) :=
  let* model_info := _get_model_info model in
  if negb (any_filter filters) then Ok nodes
  else foldM (filter_step model_info) filters nodes.

(** [if not models: models = [""]]: the current model by default. *)
Definition default_models (models : list string) : list string :=
  match models with [] => [""] | _ => models end.

(** [get_nodes]; the four arguments are the values of
    [self.get_option("models")], ["apps"], ["units"] and ["machines"]. *)
Definition get_nodes (opt_models opt_apps opt_units opt_machines : option string)
    : result (list string) :=
  let models := _parse_option_string opt_models in
  let apps := _parse_option_string opt_apps in
  let units := _parse_option_string opt_units in
  let machines := _parse_option_string opt_machines in
  let filters := [(Apps, apps); (Units, units); (Machines, machines)] in
  let models := default_models models in
  let* nodes := foldM (model_step filters) models ∅ in
  Ok (elements nodes).

End Collector.

(* ===================================================================== *)
(** ** Sample documents *)
(* ===================================================================== *)

Definition unit_on (m : string) (subs : list string) : unit_info :=
  {| machine := Some m; subordinates := Some subs |}.

(** The end-to-end document of the spec: [A] with unit [a/0] on machine
    [1], and [B] subordinate to [A] with unit [B/0] under [a/0]. *)
Definition doc_ab : status :=
  {| applications := Some
       [("A", {| units := Some [("a/0", unit_on "1" ["B/0"])];
                 subordinate_to := None |});
        ("B", {| units := None; subordinate_to := Some ["A"] |})];
     machines := Some ["1"] |}.

(** A document with machine [5] and no applications. *)
Definition doc_machine5 : status :=
  {| applications := Some []; machines := Some ["5"] |}.

(** A document where [S/0] is listed under units of two parents on
    different machines. *)
Definition doc_two_parents : status :=
  {| applications := Some
       [("P", {| units := Some [("p/0", unit_on "3" ["S/0"])];
                 subordinate_to := None |});
        ("Q", {| units := Some [("q/0", unit_on "4" ["S/0"])];
                 subordinate_to := None |});
        ("S", {| units := None; subordinate_to := Some ["P"; "Q"] |})];
     machines := Some ["3"; "4"] |}.

(** A document with an application that has neither units nor parents. *)
Definition doc_idle_app : status :=
  {| applications := Some
       [("X", {| units := None; subordinate_to := None |})];
     machines := Some [] |}.

(** A subordinate ([C]) of a subordinate ([B], which has no units). *)
Definition doc_nested_subordinate : status :=
  {| applications := Some
       [("A", {| units := Some [("a/0", unit_on "1" ["B/0"])];
                 subordinate_to := None |});
        ("B", {| units := None; subordinate_to := Some ["A"] |});
        ("C", {| units := None; subordinate_to := Some ["B"] |})];
     machines := Some ["1"] |}.

(* ===================================================================== *)
(** ** Predicates used in the statements *)
(* ===================================================================== *)

(** Does [c] occur in [s]? *)
Fixpoint has_char (c : ascii) (s : string) : bool :=
  match s with
  | EmptyString => false
  | String c' s' => Ascii.eqb c' c || has_char c s'
  end.

(** Neither the first nor the last character is [str.isspace()]. *)
Definition no_outer_space (x : string) : bool :=
  match list_ascii_of_string x with
  | [] => true
  | c :: _ =>
      negb (isspace c)
      && negb (isspace (List.last (list_ascii_of_string x) c))
  end.

(** [units[k]] holds the single Node [node_of g m]. *)
Definition unit_at (g m k : string) (s : index) : Prop :=
  idx_units s !! k = Some [node_of g m].

(** [apps[k]] holds the Node [node_of g m], among others. *)
Definition app_has (g m k : string) (s : index) : Prop :=
  exists ns, idx_apps s !! k = Some ns /\ In (node_of g m) ns.

(** Every unit record of the document that names unit [k], as a unit of
    an application or as one of its subordinates, is on machine [m]. *)
Definition placed_on (doc : status) (k m : string) : Prop :=
  forall apps a ai us u ui,
    applications doc = Some apps ->
    In (a, ai) apps -> units ai = Some us -> In (u, ui) us ->
    (u = k \/ In k (field_get (subordinates ui) [])) ->
    machine ui = Some m.

(** The shape of normalized text: empty or starting with ['{'], and every
    newline followed by ['{'] or by the end of the text. *)
Definition brace_lines (s : string) : Prop :=
  (s = EmptyString \/ exists r, s = String lbrace r)
  /\ forall pre post, s = pre +:+ String newline post ->
       post = EmptyString \/ exists r, post = String lbrace r.

(** The characters with a special meaning in Python's [re] syntax. *)
Definition re_special (c : ascii) : bool :=
  existsb (Ascii.eqb c)
    ["."; "^"; "$"; "*"; "+"; "?"; "{"; "}"; "["; "]"; "\"; "|"; "("; ")"]%char.

(** A term with no special character: [re] reads it literally. *)
Definition plain_term (p : string) : bool :=
  forallb (fun c => negb (re_special c)) (list_ascii_of_string p).

(** No character of [s] is [str.isspace()]. *)
Definition no_space (s : string) : bool :=
  forallb (fun c => negb (isspace c)) (list_ascii_of_string s).

(** The number of occurrences of [c] in [s]. *)
Fixpoint count_char (c : ascii) (s : string) : nat :=
  match s with
  | EmptyString => 0
  | String c' s' => (if Ascii.eqb c' c then 1 else 0) + count_char c s'
  end.

(** The Node of a unit entry, [f"{model_name}:{unit_info['machine']}"]
    (indexing raises before it meets a unit without ["machine"]; [""]
    stands for it here). *)
Definition unit_node (g : string) (u : string * unit_info) : string :=
  node_of g (field_get (machine (snd u)) "").

(** The Nodes of an application's own units, in order. *)
Definition principal_nodes (g : string) (ai : app_info) : list string :=
  map (unit_node g) (field_get (units ai) []).

(** The Nodes of the units of the application named [p]. *)
Definition parent_nodes (g : string) (apps : list (string * app_info))
    (p : string) : list string :=
  match assoc p apps with
  | Some pi => principal_nodes g pi
  | None => []
  end.

(** Machine [x] carries a unit of one of the applications. *)
Definition unit_machine (apps : list (string * app_info)) (x : string) : Prop :=
  exists a ai u ui, In (a, ai) apps /\ In (u, ui) (field_get (units ai) [])
    /\ machine ui = Some x.

(** Machine [x] is named by the document: listed under ["machines"] or
    carrying a unit of an application. *)
Definition doc_machine (doc : status) (x : string) : Prop :=
  In x (field_get (machines doc) [])
  \/ exists apps, applications doc = Some apps /\ unit_machine apps x.

(** Every Node stored in the index, in any category, is [g:x] for a
    machine [x] with property [P]. *)
Definition nodes_from (g : string) (P : string -> Prop) (s : index) : Prop :=
  forall cat k v n, category_map cat s !! k = Some v -> In n v ->
  exists x, n = node_of g x /\ P x.

(** Where an entry [units[k] = v] of the index comes from: [v] is the
    Node of a unit [u] of an application [a], and [k] is [u] itself or one
    of [u]'s subordinates named after an application [S] that lists [a]
    as a parent. *)
Definition unit_origin (g : string) (apps : list (string * app_info))
    (k : string) (v : list string) : Prop :=
  exists a ai u ui x, In (a, ai) apps /\ In (u, ui) (field_get (units ai) [])
    /\ machine ui = Some x /\ v = [node_of g x]
    /\ (k = u
        \/ (In k (field_get (subordinates ui) [])
            /\ exists S si, In (S, si) apps
                 /\ In a (field_get (subordinate_to si) [])
                 /\ String.prefix (S +:+ "/") k = true)).

(** What the filters select in one model. *)
Definition selected (exec_primary_cmd : string -> exec_result)
    (json_loads : string -> result status)
    (re_match : string -> string -> result bool)
    (apps units machines : list string) (model n : string) : Prop :=
  exists idx pa,
    _get_model_info exec_primary_cmd json_loads model = Ok idx
    /\ any_filter [(Apps, apps); (Units, units); (Machines, machines)] = true
    /\ _filter_by_pattern re_match Apps apps idx = Ok pa
    /\ (n ∈ pa \/ n ∈ _filter_by_fixed Units units idx
        \/ n ∈ _filter_by_fixed Machines machines idx).

(** What Python's [re.match] does with a term that has no special
    character ([plain_term]), alone or after [^]: the term matches exactly
    the strings that start with it. *)
Definition literal_semantics (re_match : string -> string -> result bool)
    : Prop :=
  forall p s, plain_term p = true ->
    re_match p s = Ok (String.prefix p s)
    /\ re_match ("^" +:+ p) s = Ok (String.prefix p s).

(** A matcher for the sample runs, which use literal terms and [^]
    followed by a literal term only: on those it is Python's [re.match]
    ([literal_semantics]). *)
Definition sample_match (pattern s : string) : result bool :=
  match pattern with
  | String c p =>
      if Ascii.eqb c "^"%char then Ok (String.prefix p s)
      else Ok (String.prefix pattern s)
  | EmptyString => Ok true
  end.

(** An index whose [apps] are [web-1], [webapp] and [database]. *)
Definition idx_web : index :=
  {| idx_apps := <["web-1" := ["m:1"]]> (<["webapp" := ["m:2"]]>
                   (<["database" := ["m:3"]]> ∅));
     idx_units := ∅; idx_machines := ∅ |}.

(* ===================================================================== *)
(** * Proofs *)
(* ===================================================================== *)

(* --------------------------------------------------------------------- *)
(** ** The output cleanup *)
(* --------------------------------------------------------------------- *)

Lemma cleanup_scan_idem (s : string) :
  forall st, cleanup_scan st (cleanup_scan st s) = cleanup_scan st s.
Proof.
  induction s as [|c s IH]; intros []; simpl; try reflexivity.
  - destruct (Ascii.eqb c lbrace) eqn:E; simpl.
    + rewrite E, IH. reflexivity.
    + apply IH.
  - destruct (Ascii.eqb c newline) eqn:E; simpl; rewrite E, IH; reflexivity.
Qed.

(** Group 1 drops a prefix without ['{']. *)
Lemma cleanup_skip (pre s : string) :
  has_char lbrace pre = false ->
  cleanup_scan Group1 (pre +:+ s) = cleanup_scan Group1 s.
Proof.
  induction pre as [|c pre IH]; simpl; intros H; [reflexivity|].
  apply orb_false_iff in H as [H1 H2]. rewrite H1. auto.
Qed.

(** Group 2 copies a stretch without a newline. *)
Lemma cleanup_copy (line s : string) :
  has_char newline line = false ->
  cleanup_scan Group2 (line +:+ s) = line +:+ cleanup_scan Group2 s.
Proof.
  induction line as [|c line IH]; simpl; intros H; [reflexivity|].
  apply orb_false_iff in H as [H1 H2]. rewrite H1, IH by exact H2.
  reflexivity.
Qed.

Lemma append_empty_r (s : string) : s +:+ EmptyString = s.
Proof. induction s as [|c s IH]; [reflexivity | exact (f_equal (String c) IH)]. Qed.

(** C5 (idempotence of the normalizer): normalizing the output of the
    normalizer gives it back, for every input; so text the normalizer
    produced is left unchanged by it. *)
Theorem cleanup_idempotent (s : string) :
  _cleanup_juju_output (_cleanup_juju_output s) = _cleanup_juju_output s.
Proof. apply cleanup_scan_idem. Qed.

(** C4 (counterexample): a payload that starts with ['{'] on the first
    line and continues over further lines loses those lines: the text
    ["{" newline "a: 1" newline "}"] is normalized to ["{" newline].
    [re.MULTILINE] anchors [^] at every line, so the substitution runs
    again on each later line, against the docstring "Remove leading
    characters before {". *)
Lemma cleanup_multiline_payload_cut :
  let s := String lbrace (String newline ("a: 1" +:+ String newline "}")) in
  _cleanup_juju_output s = String lbrace (String newline EmptyString)
  /\ _cleanup_juju_output s <> s.
Proof.
  split; [reflexivity|]. vm_compute. intro H. discriminate H.
Qed.

(** C4 (what the code does): text without ['{'] normalizes to the empty text; text
    [pre] ['{'] [line] with no ['{'] in [pre] and no newline in [line]
    normalizes to ['{'] [line]; and if a newline and [rest] follow, to
    ['{'] [line] newline followed by the normalization of [rest]: every
    later line also loses what precedes its next ['{']. *)
Theorem cleanup_first_brace_line (pre line rest : string) :
  has_char lbrace pre = false -> has_char newline line = false ->
  _cleanup_juju_output pre = EmptyString
  /\ _cleanup_juju_output (pre +:+ String lbrace line) = String lbrace line
  /\ _cleanup_juju_output (pre +:+ String lbrace (line +:+ String newline rest))
     = String lbrace (line +:+ String newline (_cleanup_juju_output rest)).
Proof.
  intros Hpre Hline. unfold _cleanup_juju_output. split; [|split].
  - rewrite <- (append_empty_r pre), cleanup_skip by exact Hpre.
    reflexivity.
  - rewrite cleanup_skip by exact Hpre. simpl.
    rewrite <- (append_empty_r line) at 1.
    rewrite cleanup_copy by exact Hline. simpl.
    rewrite append_empty_r. reflexivity.
  - rewrite cleanup_skip by exact Hpre. simpl.
    rewrite cleanup_copy by exact Hline. reflexivity.
Qed.

(* --------------------------------------------------------------------- *)
(** ** The option-string parser *)
(* --------------------------------------------------------------------- *)

Lemma lstrip_head (s : string) :
  match list_ascii_of_string (lstrip s) with
  | [] => True
  | c :: _ => isspace c = false
  end.
Proof.
  induction s as [|c s IH]; simpl; [exact I|].
  destruct (isspace c) eqn:E; [exact IH | exact E].
Qed.

Lemma lstrip_suffix (s : string) :
  exists pre, list_ascii_of_string s = (pre ++ list_ascii_of_string (lstrip s))%list.
Proof.
  induction s as [|c s [pre IH]]; simpl; [exists []; reflexivity|].
  destruct (isspace c).
  - exists (c :: pre). simpl. rewrite IH. reflexivity.
  - exists []. reflexivity.
Qed.

Lemma last_app_nonempty {A} (l1 l2 : list A) (d : A) :
  l2 <> [] -> List.last (l1 ++ l2)%list d = List.last l2 d.
Proof.
  intros Hne. induction l1 as [|x l1 IH]; [reflexivity|].
  simpl. destruct (l1 ++ l2)%list as [|y l] eqn:E.
  - apply app_eq_nil in E as [_ E]. contradiction.
  - exact IH.
Qed.

(** [s.strip()] leaves no whitespace at either end. *)
Lemma strip_no_outer_space (y : string) : no_outer_space (strip y) = true.
Proof.
  unfold no_outer_space, strip, rstrip.
  rewrite list_ascii_of_string_of_list_ascii.
  pose proof (lstrip_head y) as Hy.
  set (t := lstrip y) in *.
  set (A := rev (list_ascii_of_string t)).
  pose proof (lstrip_head (string_of_list_ascii A)) as HB.
  destruct (lstrip_suffix (string_of_list_ascii A)) as [pre Hpre].
  rewrite list_ascii_of_string_of_list_ascii in Hpre.
  destruct (list_ascii_of_string (lstrip (string_of_list_ascii A)))
    as [|b B'] eqn:EB; [reflexivity|].
  assert (Hlast : isspace (List.last (b :: B') b) = false).
  { destruct (list_ascii_of_string t) as [|h r] eqn:Et.
    - subst A. simpl in Hpre. destruct pre; discriminate Hpre.
    - assert (E1 : List.last A b = h)
        by (subst A; simpl; apply last_last).
      rewrite Hpre, last_app_nonempty in E1 by discriminate.
      rewrite E1. exact Hy. }
  destruct (rev (b :: B')) as [|c R] eqn:ER; [reflexivity|].
  assert (Hc : c = List.last (b :: B') b).
  { rewrite <- (rev_involutive (b :: B')), ER.
    change (rev (c :: R)) with (rev R ++ [c])%list.
    symmetry. apply last_last. }
  assert (Hl : List.last (c :: R) c = b).
  { rewrite <- ER. change (rev (b :: B')) with (rev B' ++ [b])%list.
    apply last_last. }
  rewrite Hl, HB. rewrite <- Hc in Hlast. rewrite Hlast. reflexivity.
Qed.

(** C7 (counterexample): ["a,,b"] parses to [["a"; ""; "b"]], which
    contains the empty string. *)
Lemma parse_option_keeps_empty :
  _parse_option_string (Some "a,,b") = ["a"; ""; "b"]
  /\ In "" (_parse_option_string (Some "a,,b")).
Proof. split; [reflexivity | simpl; auto]. Qed.

(** C7 (amended): an absent or empty option string gives [[]]; a
    non-empty one gives its comma-separated pieces, each stripped, empty
    pieces included; no element begins or ends with whitespace. *)
Theorem parse_option_string_spec :
  _parse_option_string None = []
  /\ _parse_option_string (Some "") = []
  /\ (forall s, s <> EmptyString ->
        _parse_option_string (Some s) = map strip (split ","%char s))
  /\ (forall o x, In x (_parse_option_string o) -> no_outer_space x = true).
Proof.
  split; [reflexivity|]. split; [reflexivity|]. split.
  - intros [|c s] H; [contradiction | reflexivity].
  - intros [[|c s]|] x Hx; simpl in Hx; try contradiction.
    apply in_map_iff in Hx as [y [<- _]]. apply strip_no_outer_space.
Qed.

(* --------------------------------------------------------------------- *)
(** ** Loops that may raise *)
(* --------------------------------------------------------------------- *)

Section Loops.
Context {A S : Type} (body : S -> A -> result S).

(** An invariant of every iteration holds after the loop. *)
Lemma foldM_inv (R : S -> Prop) (xs : list A) :
  (forall y st st', In y xs -> R st -> body st y = Ok st' -> R st') ->
  forall st r, R st -> foldM body xs st = Ok r -> R r.
Proof.
  induction xs as [|x xs IH]; simpl; intros Hstep st r Hst H.
  - injection H as <-. exact Hst.
  - destruct (body st x) as [st'|e] eqn:E; simpl in H; [|discriminate H].
    apply (IH (fun y s s' Hy => Hstep y s s' (or_intror Hy)) st' r);
      [|exact H].
    exact (Hstep x st st' (or_introl eq_refl) Hst E).
Qed.

(** A property that the iteration on [x] establishes (under the invariant
    [R]) and that every iteration keeps holds after the loop. *)
Lemma foldM_reach (R P : S -> Prop) (xs : list A) (x : A) :
  (forall y st st', In y xs -> R st -> body st y = Ok st' -> R st') ->
  (forall st st', R st -> body st x = Ok st' -> P st') ->
  (forall y st st', In y xs -> R st -> P st -> body st y = Ok st' -> P st') ->
  In x xs -> forall st r, R st -> foldM body xs st = Ok r -> P r.
Proof.
  induction xs as [|y xs IH]; intros HR Hx HP Hin st r Hst H;
    [contradiction|].
  simpl in H. destruct (body st y) as [st'|e] eqn:E; simpl in H;
    [|discriminate H].
  assert (HR' : R st') by exact (HR y st st' (or_introl eq_refl) Hst E).
  destruct Hin as [<-|Hin].
  - apply (foldM_inv (fun s => R s /\ P s) xs) with (st := st');
      [|split; [exact HR'|exact (Hx st st' Hst E)] | exact H].
    intros z s s' Hz [Hs1 Hs2] Hs. split.
    + exact (HR z s s' (or_intror Hz) Hs1 Hs).
    + exact (HP z s s' (or_intror Hz) Hs1 Hs2 Hs).
  - apply (IH (fun z s s' Hz => HR z s s' (or_intror Hz)) Hx
              (fun z s s' Hz => HP z s s' (or_intror Hz)) Hin st' r HR' H).
Qed.

(** A loop over a list holding an element whose iteration always raises
    raises. *)
Lemma foldM_fails (xs : list A) (x : A) :
  In x xs -> (forall st, exists e, body st x = Err e) ->
  forall st, exists e, foldM body xs st = Err e.
Proof.
  induction xs as [|y xs IH]; intros Hin Hx st; [contradiction|].
  simpl. destruct Hin as [<-|Hin].
  - destruct (Hx st) as [e He]. rewrite He. exists e. reflexivity.
  - destruct (body st y) as [st'|e]; simpl; [apply IH; assumption|].
    exists e. reflexivity.
Qed.

(** Every iteration of a loop that finished without raising finished. *)
Lemma foldM_each_ok (xs : list A) (x : A) :
  In x xs -> forall st r, foldM body xs st = Ok r ->
  exists st0 st1, body st0 x = Ok st1.
Proof.
  induction xs as [|y xs IH]; intros Hin st r H; [contradiction|].
  simpl in H. destruct (body st y) as [st'|e] eqn:E; simpl in H;
    [|discriminate H].
  destruct Hin as [<-|Hin]; [exists st, st'; exact E|].
  exact (IH Hin st' r H).
Qed.

End Loops.

(* --------------------------------------------------------------------- *)
(** ** Fetching the status *)
(* --------------------------------------------------------------------- *)

Lemma prefix_append (s t : string) : String.prefix s (s +:+ t) = true.
Proof.
  induction s as [|c s IH]; [destruct t; reflexivity|]. simpl.
  destruct (ascii_dec c c); [exact IH | contradiction].
Qed.

(** C6 (failure of the status command): with a non-zero exit status the
    fetch raises [Exception] with a message that starts with the command
    run, and so does [_get_model_info]; [get_nodes] then returns no node
    list whenever one of the requested models fails this way. With exit
    status 0 the fetch is [json.loads] of the normalized output. *)
Theorem execute_status_failure_is_fatal
    (exec : string -> exec_result) (json_loads : string -> result status)
    (re_match : string -> string -> result bool) :
  (forall m, res_status (exec (status_cmd m)) <> 0%Z ->
     _execute_juju_status exec json_loads m
       = Err (Exception (failure_message m))
     /\ String.prefix (status_cmd m) (failure_message m) = true
     /\ _get_model_info exec json_loads m
       = Err (Exception (failure_message m)))
  /\ (forall m, res_status (exec (status_cmd m)) = 0%Z ->
        _execute_juju_status exec json_loads m
        = json_loads (_cleanup_juju_output (res_output (exec (status_cmd m)))))
  /\ (forall om oa ou oma m l,
        In m (default_models (_parse_option_string om)) ->
        res_status (exec (status_cmd m)) <> 0%Z ->
        get_nodes exec json_loads re_match om oa ou oma <> Ok l).
Proof.
  assert (Hfail : forall m, res_status (exec (status_cmd m)) <> 0%Z ->
            _execute_juju_status exec json_loads m
            = Err (Exception (failure_message m))).
  { intros m Hm. unfold _execute_juju_status.
    apply Z.eqb_neq in Hm. rewrite Hm. reflexivity. }
  split; [|split].
  - intros m Hm. split; [exact (Hfail m Hm)|]. split.
    + apply prefix_append.
    + unfold _get_model_info. rewrite (Hfail m Hm). reflexivity.
  - intros m Hm. unfold _execute_juju_status.
    apply Z.eqb_eq in Hm. rewrite Hm. reflexivity.
  - intros om oa ou oma m l Hin Hm. unfold get_nodes.
    destruct (foldM_fails
                (model_step exec json_loads re_match
                   [(Apps, _parse_option_string oa);
                    (Units, _parse_option_string ou);
                    (Machines, _parse_option_string oma)])
                _ m Hin) with (st := ∅ : gset string) as [e He].
    + intros st. exists (Exception (failure_message m)).
      unfold model_step, _get_model_info. rewrite (Hfail m Hm). reflexivity.
    + rewrite He. discriminate.
Qed.

(* --------------------------------------------------------------------- *)
(** ** No filter, no nodes *)
(* --------------------------------------------------------------------- *)

(** C2 (empty filters): with the three filter lists empty, the iteration
    of a model adds no node, and [get_nodes], when it returns, returns the
    empty list, whatever the index of each model holds. *)
Theorem empty_filters_no_nodes
    (exec : string -> exec_result) (json_loads : string -> result status)
    (re_match : string -> string -> result bool) :
  (forall nodes model r,
     model_step exec json_loads re_match [(Apps, []); (Units, []); (Machines, [])]
       nodes model = Ok r -> r = nodes)
  /\ (forall om oa ou oma l,
        _parse_option_string oa = [] -> _parse_option_string ou = [] ->
        _parse_option_string oma = [] ->
        get_nodes exec json_loads re_match om oa ou oma = Ok l -> l = []).
Proof.
  assert (Hstep : forall nodes model r,
     model_step exec json_loads re_match [(Apps, []); (Units, []); (Machines, [])]
       nodes model = Ok r -> r = nodes).
  { intros nodes model r H. unfold model_step in H.
    destruct (_get_model_info exec json_loads model); simpl in H;
      [injection H as <-; reflexivity | discriminate H]. }
  split; [exact Hstep|].
  intros om oa ou oma l Ha Hu Hm H. unfold get_nodes in H.
  rewrite Ha, Hu, Hm in H.
  destruct (foldM _ _ _) as [nodes|e] eqn:E; simpl in H; [|discriminate H].
  injection H as <-.
  assert (Hn : nodes = ∅).
  { apply (foldM_inv _ (fun n => n = ∅) _ (fun y st st' _ Hst Hs =>
             eq_trans (Hstep st y st' Hs) Hst) ∅ nodes eq_refl E). }
  subst nodes. reflexivity.
Qed.

(* --------------------------------------------------------------------- *)
(** ** The filters *)
(* --------------------------------------------------------------------- *)

Section PatternLoops.
Variable re_match : string -> string -> result bool.

Lemma pattern_inner (pattern : string) (items : list (string * list string)) :
  forall acc r, foldM (pattern_update re_match pattern) items acc = Ok r ->
  forall n, n ∈ r <->
    n ∈ acc \/ exists pv, In pv items /\ re_match pattern (fst pv) = Ok true
                          /\ In n (snd pv).
Proof.
  induction items as [|pv items IH]; simpl; intros acc r H n.
  - injection H as <-. split; [auto|]. intros [Hn|[pv [[] _]]]. exact Hn.
  - unfold pattern_update at 1 in H.
    destruct (re_match pattern (fst pv)) as [b|e] eqn:Eb; simpl in H;
      [|discriminate H].
    rewrite (IH _ r H n). destruct b.
    + rewrite elem_of_union, elem_of_list_to_set, list_elem_of_In.
      split.
      * intros [[Hn|Hn]|[pv' [Hin [Hm Hn]]]]; [left; exact Hn| |].
        -- right. exists pv. auto.
        -- right. exists pv'. auto.
      * intros [Hn|[pv' [[<-|Hin] [Hm Hn]]]]; [left; left; exact Hn| |].
        -- left; right. exact Hn.
        -- right. exists pv'. auto.
    + split.
      * intros [Hn|[pv' [Hin [Hm Hn]]]]; [left; exact Hn|].
        right. exists pv'. auto.
      * intros [Hn|[pv' [[<-|Hin] [Hm Hn]]]]; [left; exact Hn| |].
        -- rewrite Eb in Hm. discriminate Hm.
        -- right. exists pv'. auto.
Qed.

Lemma pattern_outer (patterns : list string) (items : list (string * list string)) :
  forall acc r,
  foldM (fun nodes pattern => foldM (pattern_update re_match pattern) items nodes)
    patterns acc = Ok r ->
  forall n, n ∈ r <->
    n ∈ acc \/ exists pattern pv, In pattern patterns /\ In pv items
                 /\ re_match pattern (fst pv) = Ok true /\ In n (snd pv).
Proof.
  induction patterns as [|pat patterns IH]; simpl; intros acc r H n.
  - injection H as <-. split; [auto|].
    intros [Hn|[p [pv [[] _]]]]. exact Hn.
  - destruct (foldM (pattern_update re_match pat) items acc) as [acc'|e] eqn:E;
      simpl in H; [|discriminate H].
    rewrite (IH acc' r H n), (pattern_inner pat items acc acc' E n).
    split.
    + intros [[Hn|[pv Hpv]]|[p [pv [Hp Hpv]]]]; [left; exact Hn| |].
      * right. exists pat, pv. tauto.
      * right. exists p, pv. tauto.
    + intros [Hn|[p [pv [[<-|Hp] Hpv]]]]; [left; left; exact Hn| |].
      * left; right. exists pv. tauto.
      * right. exists p, pv. tauto.
Qed.

End PatternLoops.

Lemma fixed_inner (pattern : string) (items : list (string * list string)) :
  forall acc n,
  n ∈ fold_left (fixed_update pattern) items acc <->
    n ∈ acc \/ exists pv, In pv items /\ fst pv = pattern /\ In n (snd pv).
Proof.
  induction items as [|pv items IH]; simpl; intros acc n.
  - split; [auto|]. intros [Hn|[pv [[] _]]]. exact Hn.
  - rewrite IH. unfold fixed_update at 1.
    destruct (String.eqb pattern (fst pv)) eqn:Eq.
    + apply String.eqb_eq in Eq.
      rewrite elem_of_union, elem_of_list_to_set, list_elem_of_In.
      split.
      * intros [[Hn|Hn]|[pv' [Hin [Hm Hn]]]]; [left; exact Hn| |].
        -- right. exists pv. auto.
        -- right. exists pv'. auto.
      * intros [Hn|[pv' [[<-|Hin] [Hm Hn]]]]; [left; left; exact Hn| |].
        -- left; right. exact Hn.
        -- right. exists pv'. auto.
    + apply String.eqb_neq in Eq. split.
      * intros [Hn|[pv' [Hin [Hm Hn]]]]; [left; exact Hn|].
        right. exists pv'. auto.
      * intros [Hn|[pv' [[<-|Hin] [Hm Hn]]]]; [left; exact Hn| |].
        -- congruence.
        -- right. exists pv'. auto.
Qed.

Lemma fixed_outer (patterns : list string) (items : list (string * list string)) :
  forall acc n,
  n ∈ fold_left (fun nodes pattern => fold_left (fixed_update pattern) items nodes)
        patterns acc <->
    n ∈ acc \/ exists pattern pv, In pattern patterns /\ In pv items
                 /\ fst pv = pattern /\ In n (snd pv).
Proof.
  induction patterns as [|pat patterns IH]; simpl; intros acc n.
  - split; [auto|]. intros [Hn|[p [pv [[] _]]]]. exact Hn.
  - rewrite IH, fixed_inner. split.
    + intros [[Hn|[pv Hpv]]|[p [pv [Hp Hpv]]]]; [left; exact Hn| |].
      * right. exists pat, pv. tauto.
      * right. exists p, pv. tauto.
    + intros [Hn|[p [pv [[<-|Hp] Hpv]]]]; [left; left; exact Hn| |].
      * left; right. exists pv. tauto.
      * right. exists p, pv. tauto.
Qed.

(** The loop over [filters.items()] in [get_nodes]. *)
Lemma filter_dispatch (re_match : string -> string -> result bool)
    (idx : index) (nodes : gset string) (apps units machines : list string) :
  foldM (filter_step re_match idx)
    [(Apps, apps); (Units, units); (Machines, machines)] nodes
  = (let* a := _filter_by_pattern re_match Apps apps idx in
     Ok (nodes ∪ a ∪ _filter_by_fixed Units units idx
                 ∪ _filter_by_fixed Machines machines idx)).
Proof. simpl. destruct (_filter_by_pattern re_match Apps apps idx); reflexivity. Qed.

Lemma fixed_filter_spec (key : category) (terms : list string) (idx : index)
    (n : string) :
  n ∈ _filter_by_fixed key terms idx <->
  exists term ns, In term terms
    /\ category_map key idx !! term = Some ns /\ In n ns.
Proof.
  unfold _filter_by_fixed. rewrite fixed_outer. split.
  - intros [Hn|[term [[name ns] [Ht [Hin [Hm Hn]]]]]];
      [apply not_elem_of_empty in Hn; contradiction|].
    simpl in Hm. subst name.
    exists term, ns. apply list_elem_of_In, elem_of_map_to_list in Hin.
    auto.
  - intros [term [ns [Ht [Hl Hn]]]]. right.
    exists term, (term, ns). split; [exact Ht|]. split; [|auto].
    apply list_elem_of_In, elem_of_map_to_list. exact Hl.
Qed.

Lemma pattern_filter_empty (re_match : string -> string -> result bool)
    (key : category) (idx : index) :
  _filter_by_pattern re_match key [] idx = Ok ∅.
Proof. reflexivity. Qed.

Section PatternResults.
Variable re_match : string -> string -> result bool.

(** The pattern filter selects the Nodes of the names some term matches. *)
Lemma pattern_filter_spec (key : category) (terms : list string) (idx : index)
    (r : gset string) :
  _filter_by_pattern re_match key terms idx = Ok r ->
  forall n, n ∈ r <->
    exists term name ns, In term terms
      /\ category_map key idx !! name = Some ns
      /\ re_match term name = Ok true /\ In n ns.
Proof.
  intros H n. unfold _filter_by_pattern in H.
  rewrite (pattern_outer re_match _ _ _ r H n). split.
  - intros [Hn|[term [[name ns] [Ht [Hin [Hm Hn]]]]]];
      [apply not_elem_of_empty in Hn; contradiction|].
    exists term, name, ns. apply list_elem_of_In, elem_of_map_to_list in Hin.
    auto.
  - intros [term [name [ns [Ht [Hl [Hm Hn]]]]]]. right.
    exists term, (name, ns). split; [exact Ht|]. split; [|auto].
    apply list_elem_of_In, elem_of_map_to_list. exact Hl.
Qed.

(** A term on which [re.match] never raises lets the inner loop finish. *)
Lemma pattern_inner_ok (pattern : string) (items : list (string * list string)) :
  (forall s, exists b, re_match pattern s = Ok b) ->
  forall acc, exists r, foldM (pattern_update re_match pattern) items acc = Ok r.
Proof.
  intros Hp. induction items as [|pv items IH]; intros acc; [eexists; reflexivity|].
  simpl. unfold pattern_update at 1. destruct (Hp (fst pv)) as [b Hb].
  rewrite Hb. cbn [bind]. apply IH.
Qed.

Lemma pattern_filter_ok (key : category) (terms : list string) (idx : index) :
  Forall (fun t => forall s, exists b, re_match t s = Ok b) terms ->
  exists r, _filter_by_pattern re_match key terms idx = Ok r.
Proof.
  intros Hall. unfold _filter_by_pattern. generalize (∅ : gset string).
  induction Hall as [|t terms Ht _ IH]; intros acc; [eexists; reflexivity|].
  destruct (pattern_inner_ok t (map_to_list (category_map key idx)) Ht acc)
    as [r Hr].
  simpl. rewrite Hr. cbn [bind]. apply IH.
Qed.

(** Terms that [re.match] reads as "starts with [f t]" select the Nodes of
    the names that start with [f t] for some term [t]. *)
Lemma prefix_terms_select (f : string -> string) (key : category)
    (terms : list string) (idx : index) :
  (forall t s, In t terms -> re_match t s = Ok (String.prefix (f t) s)) ->
  exists r, _filter_by_pattern re_match key terms idx = Ok r /\
    forall n, n ∈ r <->
      exists term name ns, In term terms
        /\ category_map key idx !! name = Some ns
        /\ String.prefix (f term) name = true /\ In n ns.
Proof.
  intros Hf.
  destruct (pattern_filter_ok key terms idx) as [r Hr].
  { apply Forall_forall. intros t Ht s. exists (String.prefix (f t) s).
    apply Hf. apply list_elem_of_In. exact Ht. }
  exists r. split; [exact Hr|]. intros n.
  rewrite (pattern_filter_spec key terms idx r Hr n). split.
  - intros (term & name & ns & Ht & Hl & Hm & Hn).
    rewrite (Hf term name Ht) in Hm. injection Hm as Hm. eauto 10.
  - intros (term & name & ns & Ht & Hl & Hp & Hn).
    exists term, name, ns. rewrite (Hf term name Ht), Hp. auto.
Qed.

End PatternResults.

(** C3 (matching policy per category): the filter loop of [get_nodes]
    runs the pattern filter on [apps] and the exact filter on [units] and
    [machines]. The pattern filter collects the Nodes of the names on which
    [re.match(term, name)] (which matches at the start of the name only)
    returns a match for some term; the exact filter collects those of the
    names equal to some term. With Python's [re.match] on literal terms
    ([literal_semantics]), the term ["^web"] selects exactly the names that
    start with ["web"], a match at the start of the name that leaves the
    rest of it unmatched: of [web-1], [webapp] and [database] it selects the
    first two. *)
Theorem filter_policies (re_match : string -> string -> result bool) :
  (forall idx nodes apps units machines,
     foldM (filter_step re_match idx)
       [(Apps, apps); (Units, units); (Machines, machines)] nodes
     = (let* a := _filter_by_pattern re_match Apps apps idx in
        Ok (nodes ∪ a ∪ _filter_by_fixed Units units idx
                    ∪ _filter_by_fixed Machines machines idx)))
  /\ (forall key terms idx r, _filter_by_pattern re_match key terms idx = Ok r ->
        forall n, n ∈ r <->
          exists term name ns, In term terms
            /\ category_map key idx !! name = Some ns
            /\ re_match term name = Ok true /\ In n ns)
  /\ (forall key terms idx n,
        n ∈ _filter_by_fixed key terms idx <->
          exists term ns, In term terms
            /\ category_map key idx !! term = Some ns /\ In n ns)
  /\ (literal_semantics re_match ->
        forall idx, exists r, _filter_by_pattern re_match Apps ["^web"] idx = Ok r
          /\ forall n, n ∈ r <->
               exists name ns, idx_apps idx !! name = Some ns
                 /\ String.prefix "web" name = true /\ In n ns)
  /\ (literal_semantics re_match ->
        exists r, _filter_by_pattern re_match Apps ["^web"] idx_web = Ok r
          /\ forall n, n ∈ r <-> n = "m:1" \/ n = "m:2").
Proof.
  assert (Hweb : literal_semantics re_match ->
        forall idx, exists r, _filter_by_pattern re_match Apps ["^web"] idx = Ok r
          /\ forall n, n ∈ r <->
               exists name ns, idx_apps idx !! name = Some ns
                 /\ String.prefix "web" name = true /\ In n ns).
  { intros Hlit idx.
    destruct (prefix_terms_select re_match (fun _ => "web") Apps ["^web"] idx)
      as (r & Hr & Hn).
    { intros t s [<-|[]]. exact (proj2 (Hlit "web" s eq_refl)). }
    exists r. split; [exact Hr|]. intros n. rewrite Hn. simpl. split.
    - intros (term & name & ns & _ & Hl & Hp & Hin). eauto.
    - intros (name & ns & Hl & Hp & Hin). exists "^web", name, ns. auto. }
  split; [|split; [|split; [|split]]].
  - intros idx nodes apps units machines. apply filter_dispatch.
  - intros key terms idx r H n. exact (pattern_filter_spec re_match key terms idx r H n).
  - intros key terms idx n. apply fixed_filter_spec.
  - exact Hweb.
  - intros Hlit. destruct (Hweb Hlit idx_web) as (r & Hr & Hn).
    exists r. split; [exact Hr|]. intros n. rewrite Hn. split.
    + intros (name & ns & Hl & Hp & Hin). unfold idx_web in Hl. simpl in Hl.
      destruct (String.eq_dec name "web-1") as [->|N1].
      { rewrite lookup_insert_eq in Hl. injection Hl as <-.
        destruct Hin as [<-|[]]. auto. }
      rewrite lookup_insert_ne in Hl by congruence.
      destruct (String.eq_dec name "webapp") as [->|N2].
      { rewrite lookup_insert_eq in Hl. injection Hl as <-.
        destruct Hin as [<-|[]]. auto. }
      rewrite lookup_insert_ne in Hl by congruence.
      destruct (String.eq_dec name "database") as [->|N3].
      { discriminate Hp. }
      rewrite lookup_insert_ne, lookup_empty in Hl by congruence. discriminate Hl.
    + intros [-> | ->].
      * exists "web-1", ["m:1"]. split; [reflexivity|]. split; [reflexivity|]. left; reflexivity.
      * exists "webapp", ["m:2"]. split; [reflexivity|]. split; [reflexivity|]. left; reflexivity.
Qed.

(* --------------------------------------------------------------------- *)
(** ** The three indexing passes *)
(* --------------------------------------------------------------------- *)

Lemma build_index_ok (g : string) (doc : status) (idx : index) :
  build_index g doc = Ok idx ->
  exists apps ms idx1 idx2,
    applications doc = Some apps /\ machines doc = Some ms
    /\ foldM (add_principal_app g) apps empty_index = Ok idx1
    /\ foldM (add_subordinate_app apps g) apps idx1 = Ok idx2
    /\ idx = fold_left (add_machine g) ms idx2.
Proof.
  unfold build_index, _add_principals_to_index, _add_subordinates_to_index,
    _add_machines_to_index.
  destruct (applications doc) as [apps|]; simpl; [|discriminate].
  destruct (foldM (add_principal_app g) apps empty_index) as [idx1|e] eqn:E1;
    simpl; [|discriminate].
  destruct (foldM (add_subordinate_app apps g) apps idx1) as [idx2|e] eqn:E2;
    simpl; [|discriminate].
  destruct (machines doc) as [ms|]; simpl; [|discriminate].
  intros H. injection H as <-. exists apps, ms, idx1, idx2. auto.
Qed.

Lemma add_machines_keep (g : string) (ms : list string) :
  forall idx, idx_apps (fold_left (add_machine g) ms idx) = idx_apps idx
  /\ idx_units (fold_left (add_machine g) ms idx) = idx_units idx.
Proof.
  induction ms as [|m ms IH]; intros idx; [auto|]. simpl.
  destruct (IH (add_machine g idx m)) as [H1 H2]. rewrite H1, H2. auto.
Qed.

Lemma add_machines_other (g : string) (ms : list string) (m : string) :
  ~ In m ms -> forall idx,
  idx_machines (fold_left (add_machine g) ms idx) !! m = idx_machines idx !! m.
Proof.
  induction ms as [|m' ms IH]; intros Hm idx; [reflexivity|]. simpl.
  rewrite IH by (intros H; apply Hm; right; exact H).
  simpl. apply lookup_insert_ne. intros <-. apply Hm. left. reflexivity.
Qed.

Lemma add_machines_set (g : string) (ms : list string) (m : string) :
  In m ms -> forall idx,
  idx_machines (fold_left (add_machine g) ms idx) !! m = Some [node_of g m].
Proof.
  induction ms as [|m' ms IH]; intros Hm idx; [contradiction|]. simpl.
  destruct (in_dec string_dec m ms) as [Hin|Hout]; [apply IH, Hin|].
  destruct Hm as [<-|Hm]; [|contradiction].
  rewrite add_machines_other by exact Hout. apply lookup_insert_eq.
Qed.

(** C9 (machine pass): once the three passes are done, every machine of
    the document's [machines] section maps to its single Node; for the
    document with machine [5] and no application, the filter
    [{machines: ["5"]}] gives the Node [g:5] and nothing else, for every
    grouping [g], and [get_nodes] returns exactly [[g:5]]. *)
Theorem machine_pass_indexes_every_machine
    (re_match : string -> string -> result bool) :
  (forall g doc idx ms, build_index g doc = Ok idx -> machines doc = Some ms ->
     forall m, In m ms -> idx_machines idx !! m = Some [node_of g m])
  /\ (forall g, exists idx, build_index g doc_machine5 = Ok idx
        /\ foldM (filter_step re_match idx) [(Apps, []); (Units, []); (Machines, ["5"])] ∅
           = Ok {[node_of g "5"]})
  /\ (forall exec json_loads om g,
        default_models (_parse_option_string om) = [g] ->
        res_status (exec (status_cmd g)) = 0%Z ->
        json_loads (_cleanup_juju_output (res_output (exec (status_cmd g))))
          = Ok doc_machine5 ->
        get_nodes exec json_loads re_match om None None (Some "5") = Ok [node_of g "5"]).
Proof.
  assert (Hpass : forall g doc idx ms, build_index g doc = Ok idx ->
     machines doc = Some ms ->
     forall m, In m ms -> idx_machines idx !! m = Some [node_of g m]).
  { intros g doc idx ms H Hms m Hm.
    destruct (build_index_ok g doc idx H)
      as (apps & ms' & idx1 & idx2 & _ & Hms' & _ & _ & ->).
    rewrite Hms in Hms'. injection Hms' as <-.
    apply add_machines_set, Hm. }
  assert (Hone : forall g, exists idx, build_index g doc_machine5 = Ok idx
        /\ foldM (filter_step re_match idx) [(Apps, []); (Units, []); (Machines, ["5"])] ∅
           = Ok {[node_of g "5"]}).
  { intros g. eexists. split; [reflexivity|].
    rewrite filter_dispatch, pattern_filter_empty. simpl bind. f_equal.
    apply set_eq. intros n.
    rewrite !elem_of_union, !fixed_filter_spec, elem_of_singleton.
    split.
    - intros [[[Hn|Hn]|[t [ns [[] _]]]]|[t [ns [[<-|[]] [Hl Hn]]]]];
        try (apply not_elem_of_empty in Hn; contradiction).
      simpl in Hl. rewrite lookup_insert_eq in Hl. injection Hl as <-.
      destruct Hn as [->|[]]. reflexivity.
    - intros ->. right. exists "5", [node_of g "5"].
      split; [left; reflexivity|]. split; [|left; reflexivity].
      simpl. apply lookup_insert_eq. }
  split; [exact Hpass|]. split; [exact Hone|].
  intros exec json_loads om g Hg Hst Hj. unfold get_nodes. rewrite Hg.
  simpl foldM. unfold model_step at 1, _get_model_info, _execute_juju_status.
  apply Z.eqb_eq in Hst. rewrite Hst, Hj.
  destruct (Hone g) as [idx [Hb Hf]].
  change (strip "5") with "5". cbn [bind]. rewrite Hb. cbn [bind].
  change (negb (any_filter [(Apps, []); (Units, []); (Machines, ["5"])]))
    with false.
  cbv iota. rewrite Hf. cbn [bind]. rewrite elements_singleton. reflexivity.
Qed.

(** C10 (totality precondition): when the passes finish, every parent
    named in a [subordinate-to] list is an application of the document
    with a ["units"] key; the document where [C] is subordinate to the
    subordinate [B], which has no ["units"], raises [KeyError('units')]. *)
Theorem index_requires_parent_units :
  (forall g doc idx apps, build_index g doc = Ok idx ->
     applications doc = Some apps ->
     forall a ai p, In (a, ai) apps -> In p (field_get (subordinate_to ai) []) ->
     exists pi us, assoc p apps = Some pi /\ units pi = Some us)
  /\ build_index "g" doc_nested_subordinate = Err (KeyError "units").
Proof.
  split; [|reflexivity].
  intros g doc idx apps H Happs a ai p Ha Hp.
  destruct (build_index_ok g doc idx H)
    as (apps' & ms & idx1 & idx2 & Happs' & _ & _ & Hsub & _).
  rewrite Happs in Happs'. injection Happs' as <-.
  destruct (foldM_each_ok _ apps (a, ai) Ha idx1 idx2 Hsub)
    as (st0 & st1 & Hstep).
  unfold add_subordinate_app in Hstep.
  destruct (foldM_each_ok _ _ p Hp st0 st1 Hstep) as (st2 & st3 & Hpar).
  unfold add_subordinate_parent, map_getitem, getitem, field in Hpar.
  destruct (idx_apps st2 !! a); [|discriminate Hpar]. cbn [bind] in Hpar.
  destruct (idx_apps st2 !! p); [|discriminate Hpar]. cbn [bind] in Hpar.
  destruct (assoc p apps) as [pi|]; [|discriminate Hpar]. cbn [bind] in Hpar.
  destruct (units pi) as [us|] eqn:Eu; [|discriminate Hpar].
  exists pi, us. auto.
Qed.

(* --------------------------------------------------------------------- *)
(** ** Frame lemmas: which entries each iteration writes *)
(* --------------------------------------------------------------------- *)

Lemma assoc_In {V} (k : string) (v : V) (l : list (string * V)) :
  assoc k l = Some v -> In (k, v) l.
Proof.
  induction l as [|[k' v'] l IH]; simpl; [discriminate|].
  destruct (String.eqb k' k) eqn:E.
  - apply String.eqb_eq in E as ->. intros H. injection H as ->. auto.
  - auto.
Qed.

Lemma NoDup_In_fst {V} (k : string) (v w : V) (l : list (string * V)) :
  NoDup (map fst l) -> In (k, v) l -> In (k, w) l -> v = w.
Proof.
  induction l as [|[k' v'] l IH]; simpl; intros Hnd Hv Hw; [contradiction|].
  inversion Hnd as [|? ? Hk Hnd']; subst.
  destruct Hv as [Hv|Hv]; destruct Hw as [Hw|Hw].
  - injection Hv as -> ->. injection Hw as ->. reflexivity.
  - injection Hv as -> ->. exfalso. apply Hk.
    apply list_elem_of_In, in_map_iff. exists (k, w). auto.
  - injection Hw as -> ->. exfalso. apply Hk.
    apply list_elem_of_In, in_map_iff. exists (k, v). auto.
  - exact (IH Hnd' Hv Hw).
Qed.

Lemma principal_unit_step (g : string) (st st' : index * list string)
    (u : string) (ui : unit_info) :
  add_principal_unit g st (u, ui) = Ok st' ->
  exists mu, machine ui = Some mu
    /\ idx_apps (fst st') = idx_apps (fst st)
    /\ idx_units (fst st') = <[u := [node_of g mu]]> (idx_units (fst st))
    /\ snd st' = (snd st ++ [node_of g mu])%list.
Proof.
  destruct st as [idx nodes]. unfold add_principal_unit, field.
  destruct (machine ui) as [mu|]; [|discriminate].
  intros H. injection H as <-. exists mu. auto.
Qed.

Lemma principal_app_step (g : string) (idx idx' : index) (a : string)
    (ai : app_info) :
  add_principal_app g idx (a, ai) = Ok idx' ->
  exists st, foldM (add_principal_unit g) (field_get (units ai) []) (idx, [])
             = Ok st
    /\ idx' = set_apps (<[a := snd st]> (idx_apps (fst st))) (fst st).
Proof.
  unfold add_principal_app.
  destruct (foldM (add_principal_unit g) (field_get (units ai) []) (idx, []))
    as [[i n]|e]; cbn [bind]; [|discriminate].
  intros H. injection H as <-. exists (i, n). auto.
Qed.

(** The unit loop of the principal pass leaves [apps] alone. *)
Lemma principal_units_keep_apps (g : string) (us : list (string * unit_info)) :
  forall st st', foldM (add_principal_unit g) us st = Ok st' ->
  idx_apps (fst st') = idx_apps (fst st).
Proof.
  intros st st' H.
  apply (foldM_inv (add_principal_unit g) (fun s => idx_apps (fst s) = idx_apps (fst st)) us)
    with (st := st); [|reflexivity|exact H].
  intros [u ui] s s' _ Hs Hstep.
  destruct (principal_unit_step g s s' u ui Hstep) as (mu & _ & Ha & _).
  congruence.
Qed.

Lemma subordinate_keys_keep (app node : string) (subs : list string) :
  forall idx, idx_apps (fold_left (add_subordinate_key app node) subs idx)
              = idx_apps idx.
Proof.
  induction subs as [|sk subs IH]; intros idx; [reflexivity|]. simpl.
  rewrite IH. unfold add_subordinate_key.
  destruct (String.prefix (app +:+ "/") sk); reflexivity.
Qed.

(** The entries of [units] after the loop over a unit's subordinates. *)
Lemma subordinate_keys_units (app node : string) (subs : list string) :
  forall idx k,
  idx_units (fold_left (add_subordinate_key app node) subs idx) !! k
  = if existsb (String.eqb k) subs && String.prefix (app +:+ "/") k
    then Some [node] else idx_units idx !! k.
Proof.
  induction subs as [|sk subs IH]; intros idx k; [reflexivity|]. simpl.
  rewrite IH. unfold add_subordinate_key.
  destruct (String.eqb k sk) eqn:Ek.
  - apply String.eqb_eq in Ek as <-.
    destruct (String.prefix (app +:+ "/") k) eqn:Ep; simpl.
    + rewrite lookup_insert_eq. destruct (existsb _ subs && true); reflexivity.
    + rewrite !andb_false_r. reflexivity.
  - apply String.eqb_neq in Ek. simpl.
    destruct (existsb (String.eqb k) subs && String.prefix (app +:+ "/") k);
      [reflexivity|].
    destruct (String.prefix (app +:+ "/") sk); [|reflexivity].
    simpl. apply lookup_insert_ne. congruence.
Qed.

Lemma subordinate_unit_step (g app : string) (idx idx' : index)
    (u : string) (ui : unit_info) :
  add_subordinate_unit g app idx (u, ui) = Ok idx' ->
  exists mu, machine ui = Some mu
    /\ idx' = fold_left (add_subordinate_key app (node_of g mu))
                (field_get (subordinates ui) []) idx.
Proof.
  unfold add_subordinate_unit, field.
  destruct (machine ui) as [mu|]; [|discriminate].
  intros H. injection H as <-. exists mu. auto.
Qed.

Lemma subordinate_units_keep_apps (g app : string)
    (us : list (string * unit_info)) :
  forall idx idx', foldM (add_subordinate_unit g app) us idx = Ok idx' ->
  idx_apps idx' = idx_apps idx.
Proof.
  intros idx idx' H.
  apply (foldM_inv (add_subordinate_unit g app) (fun s => idx_apps s = idx_apps idx) us)
    with (st := idx); [|reflexivity|exact H].
  intros [u ui] s s' _ Hs Hstep.
  destruct (subordinate_unit_step g app s s' u ui Hstep) as (mu & _ & ->).
  rewrite subordinate_keys_keep. exact Hs.
Qed.

Lemma subordinate_parent_step (apps : list (string * app_info))
    (g app p : string) (idx idx' : index) :
  add_subordinate_parent apps g app idx p = Ok idx' ->
  exists an pn pi us,
    idx_apps idx !! app = Some an /\ idx_apps idx !! p = Some pn
    /\ assoc p apps = Some pi /\ units pi = Some us
    /\ foldM (add_subordinate_unit g app) us
         (set_apps (<[app := (an ++ pn)%list]> (idx_apps idx)) idx) = Ok idx'.
Proof.
  unfold add_subordinate_parent, map_getitem, getitem, field.
  destruct (idx_apps idx !! app) as [an|]; [|discriminate]. cbn [bind].
  destruct (idx_apps idx !! p) as [pn|]; [|discriminate]. cbn [bind].
  destruct (assoc p apps) as [pi|]; [|discriminate]. cbn [bind].
  destruct (units pi) as [us|] eqn:Eu; [|discriminate]. cbn [bind].
  intros H. exists an, pn, pi, us. auto.
Qed.

Lemma foldM_app {A S} (body : S -> A -> result S) (l1 l2 : list A) (st : S) :
  foldM body (l1 ++ l2)%list st = (let* m := foldM body l1 st in foldM body l2 m).
Proof.
  revert st. induction l1 as [|x l1 IH]; intros st; [reflexivity|]. simpl.
  destruct (body st x); [apply IH | reflexivity].
Qed.

Lemma principal_app_other (g : string) (idx idx' : index) (b : string)
    (bi : app_info) (k : string) :
  add_principal_app g idx (b, bi) = Ok idx' -> k <> b ->
  idx_apps idx' !! k = idx_apps idx !! k.
Proof.
  intros H Hk. destruct (principal_app_step g idx idx' b bi H) as [st [Hf ->]].
  simpl. rewrite lookup_insert_ne by congruence.
  rewrite (principal_units_keep_apps g _ (idx, []) st Hf). reflexivity.
Qed.

Lemma subordinate_app_other (apps : list (string * app_info)) (g : string)
    (idx idx' : index) (b : string) (bi : app_info) (k : string) :
  add_subordinate_app apps g idx (b, bi) = Ok idx' -> k <> b ->
  idx_apps idx' !! k = idx_apps idx !! k.
Proof.
  intros H Hk. unfold add_subordinate_app in H.
  apply (foldM_inv (add_subordinate_parent apps g b)
           (fun s => idx_apps s !! k = idx_apps idx !! k)
           (field_get (subordinate_to bi) []))
    with (st := idx); [|reflexivity|exact H].
  intros p s s' _ Hs Hstep.
  destruct (subordinate_parent_step apps g b p s s' Hstep)
    as (an & pn & pi & us & _ & _ & _ & _ & Hf).
  rewrite (subordinate_units_keep_apps g b us _ _ Hf). simpl.
  rewrite lookup_insert_ne by congruence. exact Hs.
Qed.

Lemma NoDup_split_fst {V} (l1 l2 : list (string * V)) (a : string) (v : V) :
  NoDup (map fst (l1 ++ (a, v) :: l2)%list) -> a ∉ map fst l2.
Proof.
  rewrite map_app. intros H. apply NoDup_app in H as (_ & _ & H).
  simpl in H. apply NoDup_cons in H as [H _]. exact H.
Qed.

(** C8 (counterexample): an application with neither units nor parents
    is a key of [apps], mapped to the empty list. *)
Lemma idle_app_is_key :
  match build_index "g" doc_idle_app with
  | Ok idx => idx_apps idx !! "X" = Some []
  | Err _ => False
  end.
Proof. reflexivity. Qed.

(** C8 (amended): for an application with neither ["units"] nor
    ["subordinate-to"], the principal pass records its name under [apps]
    with the empty list and the subordinate pass does nothing for it, so it
    raises nothing; once the passes finish its name maps to [[]] (it is a
    key of [apps] that contributes no Node). *)
Theorem idle_app_maps_to_empty :
  (forall g idx a ai, units ai = None -> subordinate_to ai = None ->
     add_principal_app g idx (a, ai)
       = Ok (set_apps (<[a := []]> (idx_apps idx)) idx)
     /\ forall apps, add_subordinate_app apps g idx (a, ai) = Ok idx)
  /\ (forall g doc idx apps a ai,
        applications doc = Some apps -> NoDup (map fst apps) ->
        In (a, ai) apps -> units ai = None -> subordinate_to ai = None ->
        build_index g doc = Ok idx -> idx_apps idx !! a = Some []).
Proof.
  assert (Hloc : forall g idx a ai, units ai = None -> subordinate_to ai = None ->
     add_principal_app g idx (a, ai)
       = Ok (set_apps (<[a := []]> (idx_apps idx)) idx)
     /\ forall apps, add_subordinate_app apps g idx (a, ai) = Ok idx).
  { intros g idx a ai Hu Hs. split.
    - unfold add_principal_app. rewrite Hu. reflexivity.
    - intros apps. unfold add_subordinate_app. rewrite Hs. reflexivity. }
  split; [exact Hloc|].
  intros g doc idx apps a ai Happs Hnd Hin Hu Hs H.
  destruct (build_index_ok g doc idx H)
    as (apps' & ms & idx1 & idx2 & Happs' & _ & Hpri & Hsub & ->).
  rewrite Happs in Happs'. injection Happs' as <-.
  rewrite (proj1 (add_machines_keep g ms idx2)).
  (* principal pass: the iteration on [a], then the later ones *)
  assert (H1 : idx_apps idx1 !! a = Some []).
  { destruct (in_split _ _ Hin) as (l1 & l2 & Hl).
    pose proof (NoDup_split_fst l1 l2 a ai) as Hout. rewrite <- Hl in Hout.
    specialize (Hout Hnd).
    rewrite Hl, foldM_app in Hpri.
    destruct (foldM (add_principal_app g) l1 empty_index) as [i1|e];
      cbn [bind] in Hpri; [|discriminate Hpri].
    change (foldM (add_principal_app g) ((a, ai) :: l2) i1) with
      (let* st' := add_principal_app g i1 (a, ai) in
       foldM (add_principal_app g) l2 st') in Hpri.
    rewrite (proj1 (Hloc g i1 a ai Hu Hs)) in Hpri.
    cbn [bind] in Hpri.
    apply (foldM_inv (add_principal_app g)
             (fun s => idx_apps s !! a = Some []) l2) in Hpri;
      [exact Hpri| |simpl; apply lookup_insert_eq].
    intros [b bi] st st' Hy Hst Hstep.
    rewrite (principal_app_other g st st' b bi a Hstep); [exact Hst|].
    intros <-. apply Hout. apply list_elem_of_In, in_map_iff.
    exists (a, bi). auto. }
  (* subordinate pass *)
  apply (foldM_inv (add_subordinate_app apps g)
           (fun s => idx_apps s !! a = Some []) apps) in Hsub;
    [exact Hsub| |exact H1].
  intros [b bi] st st' Hy Hst Hstep.
  destruct (String.eq_dec b a) as [->|Hne].
  - rewrite (NoDup_In_fst a bi ai apps Hnd Hy Hin) in Hstep.
    rewrite (proj2 (Hloc g st a ai Hu Hs) apps) in Hstep.
    injection Hstep as <-. exact Hst.
  - rewrite (subordinate_app_other apps g st st' b bi a Hstep); congruence.
Qed.

(* --------------------------------------------------------------------- *)
(** ** Subordinate units share their principal's Node *)
(* --------------------------------------------------------------------- *)

Section Subordinates.
Variables (g m : string) (doc : status) (apps : list (string * app_info)).
Hypothesis Happs : applications doc = Some apps.

Lemma In_field_units (ai : app_info) (u : string) (ui : unit_info) :
  In (u, ui) (field_get (units ai) []) ->
  exists us, units ai = Some us /\ In (u, ui) us.
Proof.
  destruct (units ai) as [us|]; simpl; [eauto | contradiction].
Qed.

Lemma principal_unit_preserve (k a : string) (ai : app_info)
    (u : string) (ui : unit_info) (st st' : index * list string) :
  placed_on doc k m -> In (a, ai) apps ->
  In (u, ui) (field_get (units ai) []) ->
  unit_at g m k (fst st) -> add_principal_unit g st (u, ui) = Ok st' ->
  unit_at g m k (fst st').
Proof.
  intros Hk Ha Hu Hst Hstep. unfold unit_at in *.
  destruct (principal_unit_step g st st' u ui Hstep) as (mu & Hm & _ & -> & _).
  destruct (In_field_units ai u ui Hu) as (us & Hus & Hin).
  destruct (String.eq_dec u k) as [->|Hne].
  - rewrite (Hk apps a ai us k ui Happs Ha Hus Hin (or_introl eq_refl)) in Hm.
    injection Hm as ->. apply lookup_insert_eq.
  - rewrite lookup_insert_ne by congruence. exact Hst.
Qed.

Lemma principal_app_preserve (k b : string) (bi : app_info) (s s' : index) :
  placed_on doc k m -> In (b, bi) apps ->
  unit_at g m k s -> add_principal_app g s (b, bi) = Ok s' -> unit_at g m k s'.
Proof.
  intros Hk Hb Hs Hstep.
  destruct (principal_app_step g s s' b bi Hstep) as [st [Hf ->]].
  apply (foldM_inv (add_principal_unit g) (fun x => unit_at g m k (fst x))
           (field_get (units bi) [])) in Hf; [exact Hf| |exact Hs].
  intros [u ui] x x' Hu Hx Hxs.
  exact (principal_unit_preserve k b bi u ui x x' Hk Hb Hu Hx Hxs).
Qed.

(** The principal pass iteration on [P] records [units[pu]] and puts the
    Node of [pu] into [apps[P]]. *)
Lemma principal_app_establish (P : string) (pinfo : app_info)
    (pus : list (string * unit_info)) (pu : string) (pui : unit_info)
    (s s' : index) :
  placed_on doc pu m -> In (P, pinfo) apps -> units pinfo = Some pus ->
  In (pu, pui) pus -> machine pui = Some m ->
  add_principal_app g s (P, pinfo) = Ok s' -> unit_at g m pu s' /\ app_has g m P s'.
Proof.
  intros Hk HP Hpus Hpu Hm Hstep.
  destruct (principal_app_step g s s' P pinfo Hstep) as [st [Hf ->]].
  rewrite Hpus in Hf. simpl in Hf.
  apply (foldM_reach (add_principal_unit g) (fun _ => True)
           (fun x => unit_at g m pu (fst x) /\ In (node_of g m) (snd x))
           pus (pu, pui)) with (st := (s, [])) (r := st) in Hf;
    [| auto | | | exact Hpu | exact I].
  - destruct Hf as [Hu Hn]. split; [exact Hu|].
    exists (snd st). split; [simpl; apply lookup_insert_eq | exact Hn].
  - intros x x' _ Hx.
    destruct (principal_unit_step g x x' pu pui Hx) as (mu & Hmu & _ & Hu & Hn).
    rewrite Hm in Hmu. injection Hmu as <-. unfold unit_at. rewrite Hu, Hn.
    split; [apply lookup_insert_eq | apply in_or_app; right; left; reflexivity].
  - intros [u ui] x x' Hu _ [Hx1 Hx2] Hx. split.
    + apply (principal_unit_preserve pu P pinfo u ui x x' Hk HP);
        [rewrite Hpus; exact Hu | exact Hx1 | exact Hx].
    + destruct (principal_unit_step g x x' u ui Hx) as (mu & _ & _ & _ & ->).
      apply in_or_app. left. exact Hx2.
Qed.

Lemma subordinate_unit_preserve (k X a : string) (ai : app_info)
    (us : list (string * unit_info)) (u : string) (ui : unit_info)
    (s s' : index) :
  placed_on doc k m -> In (a, ai) apps -> units ai = Some us ->
  In (u, ui) us ->
  unit_at g m k s -> add_subordinate_unit g X s (u, ui) = Ok s' -> unit_at g m k s'.
Proof.
  intros Hk Ha Hus Hu Hs Hstep.
  destruct (subordinate_unit_step g X s s' u ui Hstep) as (mu & Hm & ->).
  unfold unit_at. rewrite subordinate_keys_units.
  destruct (existsb (String.eqb k) (field_get (subordinates ui) [])) eqn:E;
    [|exact Hs].
  destruct (String.prefix (X +:+ "/") k); [|exact Hs]. simpl.
  apply existsb_exists in E as [k' [Hk' Ek]].
  apply String.eqb_eq in Ek. subst k'.
  rewrite (Hk apps a ai us u ui Happs Ha Hus Hu (or_intror Hk')) in Hm.
  injection Hm as ->. reflexivity.
Qed.

Lemma subordinate_parent_preserve (k X p : string) (s s' : index) :
  placed_on doc k m ->
  unit_at g m k s -> add_subordinate_parent apps g X s p = Ok s' -> unit_at g m k s'.
Proof.
  intros Hk Hs Hstep.
  destruct (subordinate_parent_step apps g X p s s' Hstep)
    as (an & pn & pi & us & _ & _ & Hpi & Hus & Hf).
  apply assoc_In in Hpi.
  apply (foldM_inv (add_subordinate_unit g X) (unit_at g m k) us) in Hf;
    [exact Hf| |exact Hs].
  intros [u ui] x x' Hu Hx Hxs.
  exact (subordinate_unit_preserve k X p pi us u ui x x' Hk Hpi Hus Hu Hx Hxs).
Qed.

Lemma subordinate_app_preserve (k b : string) (bi : app_info) (s s' : index) :
  placed_on doc k m ->
  unit_at g m k s -> add_subordinate_app apps g s (b, bi) = Ok s' -> unit_at g m k s'.
Proof.
  intros Hk Hs Hstep. unfold add_subordinate_app in Hstep.
  apply (foldM_inv (add_subordinate_parent apps g b) (unit_at g m k)
           (field_get (subordinate_to bi) [])) in Hstep; [exact Hstep| |exact Hs].
  intros p x x' _ Hx Hxs. exact (subordinate_parent_preserve k b p x x' Hk Hx Hxs).
Qed.

(** The subordinate pass only appends to the lists of [apps]. *)
Lemma subordinate_parent_keeps_nodes (k X p : string) (s s' : index) :
  app_has g m k s -> add_subordinate_parent apps g X s p = Ok s' -> app_has g m k s'.
Proof.
  intros [ns [Hns Hn]] Hstep.
  destruct (subordinate_parent_step apps g X p s s' Hstep)
    as (an & pn & pi & us & Han & _ & _ & _ & Hf).
  unfold app_has. rewrite (subordinate_units_keep_apps g X us _ _ Hf). simpl.
  destruct (String.eq_dec X k) as [->|Hne].
  - rewrite lookup_insert_eq. rewrite Hns in Han. injection Han as <-.
    exists (ns ++ pn)%list. split; [reflexivity|]. apply in_or_app. auto.
  - rewrite lookup_insert_ne by exact Hne. eauto.
Qed.

Lemma subordinate_app_keeps_nodes (k b : string) (bi : app_info) (s s' : index) :
  app_has g m k s -> add_subordinate_app apps g s (b, bi) = Ok s' -> app_has g m k s'.
Proof.
  intros Hs Hstep. unfold add_subordinate_app in Hstep.
  apply (foldM_inv (add_subordinate_parent apps g b) (app_has g m k)
           (field_get (subordinate_to bi) [])) in Hstep; [exact Hstep| |exact Hs].
  intros p x x' _ Hx Hxs. exact (subordinate_parent_keeps_nodes k b p x x' Hx Hxs).
Qed.


(** The iteration on a parent [P] of the subordinate application [S]
    records [units[su]] for the subordinate unit [su] of a unit of [P] and
    keeps the Node of that unit in [apps[S]]. *)
Lemma subordinate_parent_establish (P S su pu : string) (pinfo : app_info)
    (pus : list (string * unit_info)) (pui : unit_info) (s s' : index) :
  NoDup (map fst apps) -> In (P, pinfo) apps -> units pinfo = Some pus ->
  In (pu, pui) pus -> machine pui = Some m ->
  In su (field_get (subordinates pui) []) ->
  String.prefix (S +:+ "/") su = true -> placed_on doc su m ->
  app_has g m P s -> add_subordinate_parent apps g S s P = Ok s' ->
  unit_at g m su s' /\ app_has g m S s'.
Proof.
  intros Hnd HP Hpus Hpu Hm Hsu Hpre Hk [ns [Hns Hn]] Hstep.
  destruct (subordinate_parent_step apps g S P s s' Hstep)
    as (an & pn & pi & us & Han & Hpn & Hpi & Hus & Hf).
  apply assoc_In in Hpi.
  rewrite (NoDup_In_fst P pi pinfo apps Hnd Hpi HP), Hpus in Hus.
  injection Hus as <-. rewrite Hns in Hpn. injection Hpn as <-.
  split.
  - eapply (foldM_reach (add_subordinate_unit g S) (fun _ => True)
              (unit_at g m su) pus (pu, pui));
      [auto | | | exact Hpu | exact I | exact Hf].
    + intros x x' _ Hx.
      destruct (subordinate_unit_step g S x x' pu pui Hx) as (mu & Hmu & ->).
      rewrite Hm in Hmu. injection Hmu as <-.
      unfold unit_at. rewrite subordinate_keys_units.
      replace (existsb (String.eqb su) (field_get (subordinates pui) []))
        with true; [rewrite Hpre; reflexivity|].
      symmetry. apply existsb_exists. exists su.
      split; [exact Hsu | apply String.eqb_refl].
    + intros [u ui] x x' Hu _ Hx Hxs.
      exact (subordinate_unit_preserve su S P pinfo pus u ui x x'
               Hk HP Hpus Hu Hx Hxs).
  - unfold app_has. rewrite (subordinate_units_keep_apps g S pus _ _ Hf).
    simpl. rewrite lookup_insert_eq. exists (an ++ ns)%list.
    split; [reflexivity|]. apply in_or_app. auto.
Qed.

Lemma subordinate_app_establish (P S su pu : string) (pinfo sinfo : app_info)
    (pus : list (string * unit_info)) (pui : unit_info) (s s' : index) :
  NoDup (map fst apps) -> In (P, pinfo) apps -> units pinfo = Some pus ->
  In (pu, pui) pus -> machine pui = Some m ->
  In su (field_get (subordinates pui) []) ->
  String.prefix (S +:+ "/") su = true -> placed_on doc su m ->
  In P (field_get (subordinate_to sinfo) []) ->
  app_has g m P s -> add_subordinate_app apps g s (S, sinfo) = Ok s' ->
  unit_at g m su s' /\ app_has g m S s'.
Proof.
  intros Hnd HP Hpus Hpu Hm Hsu Hpre Hk HPin HaP Hstep.
  unfold add_subordinate_app in Hstep.
  eapply (foldM_reach (add_subordinate_parent apps g S) (app_has g m P)
            (fun x => unit_at g m su x /\ app_has g m S x)
            (field_get (subordinate_to sinfo) []) P);
    [ | | | exact HPin | exact HaP | exact Hstep].
  - intros y x x' _ Hx Hxs. exact (subordinate_parent_keeps_nodes P S y x x' Hx Hxs).
  - intros x x' Hx Hxs.
    exact (subordinate_parent_establish P S su pu pinfo pus pui x x'
             Hnd HP Hpus Hpu Hm Hsu Hpre Hk Hx Hxs).
  - intros y x x' _ _ [H1 H2] Hxs. split.
    + exact (subordinate_parent_preserve su S y x x' Hk H1 Hxs).
    + exact (subordinate_parent_keeps_nodes S S y x x' H2 Hxs).
Qed.

End Subordinates.


(** C1 (counterexample): the document [doc_two_parents] has a parent
    application P with unit p/0 on machine 3 whose subordinates contain
    S/0, and a subordinate application S whose subordinate-to list
    contains P. Its second parent Q also lists S/0 under its unit q/0 on
    machine 4; the later write wins, so the Index maps [units["S/0"]] to
    "g:4" while [units["p/0"]] is "g:3". *)
Lemma subordinate_node_overwritten :
  match build_index "g" doc_two_parents with
  | Ok idx =>
      idx_units idx !! "S/0" = Some ["g:4"]
      /\ idx_units idx !! "p/0" = Some ["g:3"]
      /\ idx_units idx !! "S/0" <> idx_units idx !! "p/0"
  | Err _ => False
  end.
Proof.
  vm_compute. split; [reflexivity | split; [reflexivity | discriminate]].
Qed.

(** C1 (amended): let the document list its applications under
    distinct names, let [pu] be a unit of the parent application [P] on
    machine [m] whose subordinates contain [su], prefixed by "S/", and let
    the subordinate application [S] list [P] among its parents. If every
    unit record of the document naming [pu] or [su] (as a unit or as a
    subordinate) is on machine [m], then the Index built for grouping [g]
    maps both [units[su]] and [units[pu]] to the single Node "g:m", and
    [apps[S]] contains that Node. *)
Theorem subordinate_shares_principal_node (g : string) (doc : status)
    (idx : index) (apps : list (string * app_info)) (P S pu su m : string)
    (pinfo sinfo : app_info) (pus : list (string * unit_info))
    (pui : unit_info) :
  applications doc = Some apps -> NoDup (map fst apps) ->
  In (P, pinfo) apps -> units pinfo = Some pus -> In (pu, pui) pus ->
  machine pui = Some m -> In su (field_get (subordinates pui) []) ->
  String.prefix (S +:+ "/") su = true ->
  In (S, sinfo) apps -> In P (field_get (subordinate_to sinfo) []) ->
  placed_on doc pu m -> placed_on doc su m ->
  build_index g doc = Ok idx ->
  idx_units idx !! su = Some [node_of g m]
  /\ idx_units idx !! pu = Some [node_of g m]
  /\ exists ns, idx_apps idx !! S = Some ns /\ In (node_of g m) ns.
Proof.
  intros Happs Hnd HP Hpus Hpu Hm Hsu Hpre HS HSP Hkpu Hksu Hb.
  destruct (build_index_ok g doc idx Hb)
    as (apps' & ms & idx1 & idx2 & Ha' & _ & H1 & H2 & ->).
  rewrite Happs in Ha'. injection Ha' as <-.
  assert (Hp : unit_at g m pu idx1 /\ app_has g m P idx1).
  { eapply (foldM_reach (add_principal_app g) (fun _ => True)
              (fun x => unit_at g m pu x /\ app_has g m P x) apps (P, pinfo));
      [auto | | | exact HP | exact I | exact H1].
    - intros x x' _ Hx.
      exact (principal_app_establish g m doc apps Happs P pinfo pus pu pui
               x x' Hkpu HP Hpus Hpu Hm Hx).
    - intros [b bi] x x' Hb' _ [Hx1 Hx2] Hxs. split.
      + exact (principal_app_preserve g m doc apps Happs pu b bi x x'
                 Hkpu Hb' Hx1 Hxs).
      + destruct (String.eq_dec b P) as [->|Hne].
        * rewrite (NoDup_In_fst P bi pinfo apps Hnd Hb' HP) in Hxs.
          exact (proj2 (principal_app_establish g m doc apps Happs P pinfo pus
                          pu pui x x' Hkpu HP Hpus Hpu Hm Hxs)).
        * destruct Hx2 as [ns [Hns Hn]]. exists ns.
          rewrite (principal_app_other g x x' b bi P Hxs) by congruence.
          auto. }
  assert (Hs : (unit_at g m su idx2 /\ app_has g m S idx2)
               /\ unit_at g m pu idx2).
  { eapply (foldM_reach (add_subordinate_app apps g)
              (fun x => app_has g m P x /\ unit_at g m pu x)
              (fun x => (unit_at g m su x /\ app_has g m S x)
                        /\ unit_at g m pu x) apps (S, sinfo));
      [ | | | exact HS | exact (conj (proj2 Hp) (proj1 Hp)) | exact H2].
    - intros [b bi] x x' _ [Hx1 Hx2] Hxs. split.
      + exact (subordinate_app_keeps_nodes g m apps P b bi x x' Hx1 Hxs).
      + exact (subordinate_app_preserve g m doc apps Happs pu b bi x x'
                 Hkpu Hx2 Hxs).
    - intros x x' [Hx1 Hx2] Hxs. split.
      + exact (subordinate_app_establish g m doc apps Happs P S su pu pinfo
                 sinfo pus pui x x' Hnd HP Hpus Hpu Hm Hsu Hpre Hksu HSP
                 Hx1 Hxs).
      + exact (subordinate_app_preserve g m doc apps Happs pu S sinfo x x'
                 Hkpu Hx2 Hxs).
    - intros [b bi] x x' _ _ [[Hx1 Hx2] Hx3] Hxs. split; [split|].
      + exact (subordinate_app_preserve g m doc apps Happs su b bi x x'
                 Hksu Hx1 Hxs).
      + exact (subordinate_app_keeps_nodes g m apps S b bi x x' Hx2 Hxs).
      + exact (subordinate_app_preserve g m doc apps Happs pu b bi x x'
                 Hkpu Hx3 Hxs). }
  destruct Hs as [[Hsu' [ns [Hns Hn]]] Hpu'].
  unfold unit_at in Hsu', Hpu'.
  destruct (add_machines_keep g ms idx2) as [Ka Ku].
  rewrite Ka, Ku. eauto.
Qed.

(* --------------------------------------------------------------------- *)
(** ** Witnesses: the hypotheses of the theorems hold on concrete inputs *)
(* --------------------------------------------------------------------- *)

(** Every unit record of [doc_ab] is on machine [1]. *)
Lemma plain_head (c : ascii) (p : string) :
  plain_term (String c p) = true ->
  Ascii.eqb c "^"%char = false /\ plain_term p = true.
Proof.
  unfold plain_term, re_special. simpl. intros H.
  apply andb_true_iff in H as [Hc Hp]. split; [|exact Hp].
  apply negb_true_iff in Hc. repeat (apply orb_false_iff in Hc as [? Hc]).
  assumption.
Qed.

(** [sample_match] is Python's [re.match] on literal terms. *)
Lemma sample_match_literal : literal_semantics sample_match.
Proof.
  intros p s Hp. split.
  - destruct p as [|c p]; [destruct s; reflexivity|].
    destruct (plain_head c p Hp) as [Hc _]. simpl. rewrite Hc. reflexivity.
  - reflexivity.
Qed.

Lemma doc_ab_placed (k : string) : placed_on doc_ab k "1".
Proof.
  intros apps a ai us u ui Ha Hin Hus Hu _.
  injection Ha as <-. simpl in Hin.
  destruct Hin as [Hin|[Hin|[]]]; injection Hin as <- <-; simpl in Hus;
    [injection Hus as <- | discriminate].
  destruct Hu as [Hu|[]]. injection Hu as <- <-. reflexivity.
Qed.

Lemma subordinate_shares_principal_node_witness :
  exists idx, build_index "g" doc_ab = Ok idx
  /\ idx_units idx !! "B/0" = Some [node_of "g" "1"]
  /\ idx_units idx !! "a/0" = Some [node_of "g" "1"]
  /\ exists ns, idx_apps idx !! "B" = Some ns /\ In (node_of "g" "1") ns.
Proof.
  eexists. split; [reflexivity|].
  eapply (subordinate_shares_principal_node "g" doc_ab _ _
            "A" "B" "a/0" "B/0" "1");
    [ reflexivity
    | apply (bool_decide_unpack _); vm_compute; reflexivity
    | simpl; left; reflexivity
    | reflexivity
    | simpl; left; reflexivity
    | reflexivity
    | simpl; left; reflexivity
    | reflexivity
    | simpl; right; left; reflexivity
    | simpl; left; reflexivity
    | apply doc_ab_placed
    | apply doc_ab_placed
    | reflexivity ].
Defined.

Lemma empty_filters_no_nodes_witness :
  exists l, get_nodes (fun _ => {| res_status := 0%Z; res_output := "{}" |})
              (fun _ => Ok doc_ab) sample_match (Some "m1, m2") None (Some "") None = Ok l
  /\ l = [].
Proof.
  eexists. split; [reflexivity|].
  apply (proj2 (empty_filters_no_nodes
                  (fun _ => {| res_status := 0%Z; res_output := "{}" |})
                  (fun _ => Ok doc_ab) sample_match)
           (Some "m1, m2") None (Some "") None);
    reflexivity.
Defined.

Lemma filter_policies_witness :
  literal_semantics sample_match
  /\ exists r, _filter_by_pattern sample_match Apps ["^web"] idx_web = Ok r
       /\ forall n, n ∈ r <-> n = "m:1" \/ n = "m:2".
Proof.
  split; [exact sample_match_literal|].
  exact (proj2 (proj2 (proj2 (proj2 (filter_policies sample_match))))
           sample_match_literal).
Defined.

Lemma cleanup_first_brace_line_witness :
  has_char lbrace ("warning" +:+ String newline "") = false
  /\ has_char newline "a" = false
  /\ _cleanup_juju_output (("warning" +:+ String newline "") +:+ String lbrace
        ("a" +:+ String newline "b"))
     = String lbrace ("a" +:+ String newline (_cleanup_juju_output "b")).
Proof.
  assert (H1 : has_char lbrace ("warning" +:+ String newline "") = false)
    by reflexivity.
  assert (H2 : has_char newline "a" = false) by reflexivity.
  split; [exact H1 | split; [exact H2|]].
  exact (proj2 (proj2 (cleanup_first_brace_line _ "a" "b" H1 H2))).
Defined.

Lemma execute_status_failure_is_fatal_witness :
  res_status ((fun _ => {| res_status := 1%Z; res_output := "" |})
                (status_cmd "m")) <> 0%Z
  /\ _get_model_info (fun _ => {| res_status := 1%Z; res_output := "" |})
       (fun _ => Ok doc_ab) "m" = Err (Exception (failure_message "m"))
  /\ forall l, get_nodes (fun _ => {| res_status := 1%Z; res_output := "" |})
                 (fun _ => Ok doc_ab) sample_match (Some "m") None (Some "0") None <> Ok l.
Proof.
  destruct (execute_status_failure_is_fatal
              (fun _ => {| res_status := 1%Z; res_output := "" |})
              (fun _ => Ok doc_ab) sample_match) as [H1 [_ H3]].
  assert (Hs : res_status ((fun _ => {| res_status := 1%Z; res_output := "" |})
                             (status_cmd "m")) <> 0%Z) by (simpl; lia).
  split; [exact Hs | split; [exact (proj2 (proj2 (H1 "m" Hs))) |]].
  intros l. apply (H3 (Some "m") None (Some "0") None "m" l);
    [vm_compute; left; reflexivity | exact Hs].
Defined.

Lemma parse_option_string_spec_witness :
  "a, b" <> EmptyString
  /\ _parse_option_string (Some "a, b") = map strip (split ","%char "a, b")
  /\ In "b" (_parse_option_string (Some "a, b")) /\ no_outer_space "b" = true.
Proof.
  destruct parse_option_string_spec as (_ & _ & H3 & H4).
  assert (Hne : "a, b" <> EmptyString) by discriminate.
  assert (Hin : In "b" (_parse_option_string (Some "a, b")))
    by (vm_compute; right; left; reflexivity).
  split; [exact Hne | split; [exact (H3 _ Hne) | split; [exact Hin|]]].
  exact (H4 _ _ Hin).
Defined.

Lemma idle_app_maps_to_empty_witness :
  exists idx, build_index "g" doc_idle_app = Ok idx
  /\ idx_apps idx !! "X" = Some [].
Proof.
  eexists. split; [reflexivity|].
  eapply (proj2 idle_app_maps_to_empty "g" doc_idle_app _ _ "X");
    [ reflexivity
    | apply (bool_decide_unpack _); vm_compute; reflexivity
    | simpl; left; reflexivity
    | reflexivity
    | reflexivity
    | reflexivity ].
Defined.

Lemma machine_pass_indexes_every_machine_witness :
  (exists idx, build_index "g" doc_ab = Ok idx
     /\ idx_machines idx !! "1" = Some [node_of "g" "1"])
  /\ get_nodes (fun _ => {| res_status := 0%Z; res_output := "{}" |})
       (fun _ => Ok doc_machine5) sample_match (Some "m") None None (Some "5")
     = Ok [node_of "m" "5"].
Proof.
  destruct (machine_pass_indexes_every_machine sample_match) as (H1 & _ & H3).
  split.
  - eexists. split; [reflexivity|].
    eapply (H1 "g" doc_ab _ ["1"]);
      [reflexivity | reflexivity | simpl; left; reflexivity].
  - apply H3; reflexivity.
Defined.

Lemma index_requires_parent_units_witness :
  exists idx apps, build_index "g" doc_ab = Ok idx
  /\ applications doc_ab = Some apps
  /\ exists pi us, assoc "A" apps = Some pi /\ units pi = Some us.
Proof.
  eexists. eexists. split; [reflexivity|]. split; [reflexivity|].
  eapply (proj1 index_requires_parent_units "g" doc_ab _ _);
    [ reflexivity | reflexivity
    | simpl; right; left; reflexivity | simpl; left; reflexivity ].
Defined.

(* ===================================================================== *)
(** * Further properties of the code *)
(* ===================================================================== *)

(* --------------------------------------------------------------------- *)
(** ** The shape of normalized text *)
(* --------------------------------------------------------------------- *)

Lemma newline_split (c : ascii) (o pre post : string) :
  String c o = pre +:+ String newline post ->
  (pre = EmptyString /\ c = newline /\ o = post)
  \/ exists pre', pre = String c pre' /\ o = pre' +:+ String newline post.
Proof.
  destruct pre as [|c' pre']; simpl; intros H; injection H as -> ->; eauto.
Qed.

Lemma no_newline_in_empty (pre post : string) :
  EmptyString <> pre +:+ String newline post.
Proof. destruct pre; discriminate. Qed.

Lemma cleanup_scan_shape (s : string) : forall st,
  (st = Group1 -> cleanup_scan st s = EmptyString
                  \/ exists r, cleanup_scan st s = String lbrace r)
  /\ forall pre post, cleanup_scan st s = pre +:+ String newline post ->
       post = EmptyString \/ exists r, post = String lbrace r.
Proof.
  induction s as [|c s IH]; intros st.
  - split; [auto|]. intros pre post H. exfalso. exact (no_newline_in_empty _ _ H).
  - destruct st; simpl.
    + destruct (Ascii.eqb c lbrace) eqn:Ec.
      * apply Ascii.eqb_eq in Ec as ->. split; [eauto|].
        intros pre post H. apply newline_split in H as [(_ & E & _)|(pre' & _ & H)];
          [discriminate E|].
        exact (proj2 (IH Group2) pre' post H).
      * exact (IH Group1).
    + split; [discriminate|].
      destruct (Ascii.eqb c newline) eqn:Ec; intros pre post H;
        apply newline_split in H as [(_ & E & H)|(pre' & _ & H)].
      * subst post. exact (proj1 (IH Group1) eq_refl).
      * exact (proj2 (IH Group1) pre' post H).
      * subst c. rewrite Ascii.eqb_refl in Ec. discriminate Ec.
      * exact (proj2 (IH Group2) pre' post H).
Qed.

Lemma cleanup_scan_fixed (s : string) :
  (forall pre post, s = pre +:+ String newline post ->
     post = EmptyString \/ exists r, post = String lbrace r) ->
  cleanup_scan Group2 s = s
  /\ ((s = EmptyString \/ exists r, s = String lbrace r) ->
      cleanup_scan Group1 s = s).
Proof.
  induction s as [|c s IH]; intros Hnl; [auto|].
  assert (Hnl' : forall pre post, s = pre +:+ String newline post ->
            post = EmptyString \/ exists r, post = String lbrace r).
  { intros pre post H. apply (Hnl (String c pre)). simpl. rewrite H. reflexivity. }
  destruct (IH Hnl') as [IH2 IH1]. split.
  - simpl. destruct (Ascii.eqb c newline) eqn:Ec.
    + apply Ascii.eqb_eq in Ec as ->. rewrite IH1; [reflexivity|].
      apply (Hnl EmptyString). reflexivity.
    + rewrite IH2. reflexivity.
  - intros [H|[r H]]; [discriminate H|]. injection H as -> _.
    simpl. rewrite IH2. reflexivity.
Qed.

(** X1 (shape of the normalized output): the output of
    [_cleanup_juju_output] is empty or starts with ['{'], and every line
    after a newline of the output is empty or starts with ['{']. *)
Theorem cleanup_output_shape (s : string) :
  brace_lines (_cleanup_juju_output s).
Proof.
  unfold brace_lines, _cleanup_juju_output.
  destruct (cleanup_scan_shape s Group1) as [H1 H2]. auto.
Qed.

(** X2 (texts the normalizer keeps): [_cleanup_juju_output] returns its
    input unchanged exactly when the input is empty or starts with ['{']
    and every newline is followed by ['{'] or ends the text. *)
Theorem cleanup_fixed_points (s : string) :
  _cleanup_juju_output s = s <-> brace_lines s.
Proof.
  split.
  - intros H. rewrite <- H. apply cleanup_output_shape.
  - intros [Hhead Hnl]. exact (proj2 (cleanup_scan_fixed s Hnl) Hhead).
Qed.

(* --------------------------------------------------------------------- *)
(** ** The option parser: pieces and round trip *)
(* --------------------------------------------------------------------- *)

Lemma split_length (sep : ascii) (s : string) :
  List.length (split sep s) = S (count_char sep s).
Proof.
  induction s as [|c s IH]; [reflexivity|]. simpl.
  destruct (split sep s) as [|p ps] eqn:E; [discriminate IH|].
  destruct (Ascii.eqb c sep); simpl in *; lia.
Qed.

Lemma concat_cons_char (c : ascii) (p : string) (ps : list string) :
  String.concat "," (String c p :: ps) = String c (String.concat "," (p :: ps)).
Proof. destruct ps; reflexivity. Qed.

Lemma concat_split (s : string) : String.concat "," (split ","%char s) = s.
Proof.
  induction s as [|c s IH]; [reflexivity|]. simpl.
  destruct (split ","%char s) as [|p ps] eqn:E.
  - pose proof (split_length ","%char s) as L. rewrite E in L. discriminate L.
  - destruct (Ascii.eqb c ",") eqn:Ec.
    + apply Ascii.eqb_eq in Ec as ->. simpl in IH |- *. rewrite IH. reflexivity.
    + rewrite concat_cons_char, IH. reflexivity.
Qed.

Lemma lstrip_no_space (s : string) : no_space s = true -> lstrip s = s.
Proof.
  destruct s as [|c s]; [reflexivity|]. unfold no_space. simpl.
  intros H. apply andb_true_iff in H as [Hc _]. apply negb_true_iff in Hc.
  rewrite Hc. reflexivity.
Qed.

Lemma strip_no_space (s : string) : no_space s = true -> strip s = s.
Proof.
  intros H. unfold strip. rewrite (lstrip_no_space s H). unfold rstrip.
  rewrite lstrip_no_space.
  - rewrite list_ascii_of_string_of_list_ascii, rev_involutive.
    apply string_of_list_ascii_of_string.
  - unfold no_space in *. rewrite list_ascii_of_string_of_list_ascii.
    apply forallb_forall. intros c Hc. apply in_rev in Hc.
    exact (proj1 (forallb_forall _ _) H c Hc).
Qed.

Lemma split_no_space (s : string) :
  no_space s = true -> Forall (fun p => no_space p = true) (split ","%char s).
Proof.
  induction s as [|c s IH]; intros H; [repeat constructor|].
  unfold no_space in H. simpl in H. apply andb_true_iff in H as [Hc Hs].
  specialize (IH Hs). simpl.
  destruct (Ascii.eqb c ","); [constructor; [reflexivity | exact IH]|].
  destruct (split ","%char s) as [|p ps]; [constructor; [|constructor]|].
  - unfold no_space. simpl. rewrite Hc. reflexivity.
  - inversion IH as [|? ? Hp Hps]; subst. constructor; [|exact Hps].
    unfold no_space in *. simpl. rewrite Hc, Hp. reflexivity.
Qed.

(** X3 (pieces of an option string): a non-empty option string gives one
    piece more than it has commas; when it has no whitespace, joining the
    pieces with [","] gives the string back. *)
Theorem parse_option_round_trip :
  (forall s, s <> EmptyString ->
     List.length (_parse_option_string (Some s)) = S (count_char ","%char s))
  /\ (forall s, s <> EmptyString -> no_space s = true ->
        String.concat "," (_parse_option_string (Some s)) = s).
Proof.
  assert (Hdef : forall s, s <> EmptyString ->
            _parse_option_string (Some s) = map strip (split ","%char s)).
  { intros [|c s] H; [contradiction | reflexivity]. }
  split.
  - intros s Hs. rewrite Hdef by exact Hs. rewrite length_map. apply split_length.
  - intros s Hs Hn. rewrite Hdef by exact Hs.
    rewrite (map_ext_in strip (fun p => p)), map_id; [apply concat_split|].
    intros p Hp. apply strip_no_space.
    exact (proj1 (Forall_forall _ _) (split_no_space s Hn) p
             (proj2 (list_elem_of_In _ _) Hp)).
Qed.

(* --------------------------------------------------------------------- *)
(** ** The Node lists of [apps] *)
(* --------------------------------------------------------------------- *)

Lemma assoc_none {V} (k : string) (l : list (string * V)) :
  assoc k l = None -> forall v, ~ In (k, v) l.
Proof.
  induction l as [|[k' v'] l IH]; simpl; [auto|].
  destruct (String.eqb k' k) eqn:E; [discriminate|].
  apply String.eqb_neq in E. intros H v [Hv|Hv]; [congruence | exact (IH H v Hv)].
Qed.

Lemma assoc_of_In {V} (k : string) (v : V) (l : list (string * V)) :
  NoDup (map fst l) -> In (k, v) l -> assoc k l = Some v.
Proof.
  intros Hnd Hin. destruct (assoc k l) as [w|] eqn:E.
  - apply assoc_In in E. f_equal. exact (NoDup_In_fst k w v l Hnd E Hin).
  - exfalso. exact (assoc_none k l E v Hin).
Qed.

Lemma NoDup_split_fst_l {V} (l1 l2 : list (string * V)) (a : string) (v : V) :
  NoDup (map fst (l1 ++ (a, v) :: l2)%list) -> a ∉ map fst l1.
Proof.
  rewrite map_app. intros H. apply NoDup_app in H as (_ & H & _).
  intros Ha. apply (H a Ha). simpl. left.
Qed.

Lemma In_fst {V} (k : string) (v : V) (l : list (string * V)) :
  In (k, v) l -> k ∈ map fst l.
Proof.
  intros H. apply list_elem_of_In, in_map_iff. exists (k, v). auto.
Qed.

(** The unit loop of the principal pass appends the Nodes of the units. *)
Lemma principal_units_nodes (g : string) (us : list (string * unit_info)) :
  forall st st', foldM (add_principal_unit g) us st = Ok st' ->
  snd st' = (snd st ++ map (unit_node g) us)%list.
Proof.
  induction us as [|[u ui] us IH]; simpl; intros st st' H.
  - injection H as <-. rewrite app_nil_r. reflexivity.
  - destruct (add_principal_unit g st (u, ui)) as [st1|e] eqn:E;
      cbn [bind] in H; [|discriminate H].
    destruct (principal_unit_step g st st1 u ui E) as (mu & Hm & _ & _ & Hn).
    rewrite (IH st1 st' H), Hn, <- app_assoc. unfold unit_node. simpl.
    rewrite Hm. reflexivity.
Qed.

Lemma principal_app_nodes (g : string) (s s' : index) (b : string)
    (bi : app_info) :
  add_principal_app g s (b, bi) = Ok s' ->
  idx_apps s' !! b = Some (principal_nodes g bi).
Proof.
  intros H. destruct (principal_app_step g s s' b bi H) as [st [Hf ->]].
  simpl. rewrite lookup_insert_eq, (principal_units_nodes g _ (s, []) st Hf).
  reflexivity.
Qed.

(** After the principal pass every application maps to the Nodes of its
    own units. *)
Lemma principal_pass_nodes (g : string) (apps : list (string * app_info))
    (idx1 : index) :
  NoDup (map fst apps) ->
  foldM (add_principal_app g) apps empty_index = Ok idx1 ->
  forall b bi, In (b, bi) apps -> idx_apps idx1 !! b = Some (principal_nodes g bi).
Proof.
  intros Hnd H b bi Hb.
  eapply (foldM_reach (add_principal_app g) (fun _ => True)
            (fun s => idx_apps s !! b = Some (principal_nodes g bi)) apps (b, bi));
    [auto | | | exact Hb | exact I | exact H].
  - intros s s' _ Hs. exact (principal_app_nodes g s s' b bi Hs).
  - intros [c ci] s s' Hc _ Hs Hstep.
    destruct (String.eq_dec c b) as [->|Hne].
    + rewrite (NoDup_In_fst b ci bi apps Hnd Hc Hb) in Hstep.
      exact (principal_app_nodes g s s' b bi Hstep).
    + rewrite (principal_app_other g s s' c ci b Hstep) by congruence.
      exact Hs.
Qed.

(** The iteration of an application without parents changes nothing. *)
Lemma subordinate_app_leaf (apps : list (string * app_info)) (g : string)
    (s s' : index) (b : string) (bi : app_info) :
  field_get (subordinate_to bi) [] = [] ->
  add_subordinate_app apps g s (b, bi) = Ok s' -> s' = s.
Proof.
  unfold add_subordinate_app. intros -> H. injection H as <-. reflexivity.
Qed.

(** The loop over the parents of [S] appends their Node lists to
    [apps[S]] when none of them is [S] itself. *)
Lemma subordinate_parents_nodes (apps : list (string * app_info))
    (g S : string) (ps : list string) :
  forall s s' x,
  foldM (add_subordinate_parent apps g S) ps s = Ok s' ->
  (forall p, In p ps -> p <> S
     /\ idx_apps s !! p = Some (parent_nodes g apps p)) ->
  idx_apps s !! S = Some x ->
  idx_apps s' !! S = Some (x ++ List.concat (map (parent_nodes g apps) ps))%list.
Proof.
  induction ps as [|p ps IH]; simpl; intros s s' x H Hps Hx.
  - injection H as <-. rewrite app_nil_r. exact Hx.
  - destruct (add_subordinate_parent apps g S s p) as [s1|e] eqn:E;
      cbn [bind] in H; [|discriminate H].
    destruct (subordinate_parent_step apps g S p s s1 E)
      as (an & pn & pi & us & Han & Hpn & _ & _ & Hf).
    destruct (Hps p (or_introl eq_refl)) as [HpS Hp].
    rewrite Hx in Han. injection Han as <-. rewrite Hp in Hpn. injection Hpn as <-.
    assert (Ha1 : idx_apps s1 = <[S := (x ++ parent_nodes g apps p)%list]> (idx_apps s)).
    { rewrite (subordinate_units_keep_apps g S us _ _ Hf). reflexivity. }
    rewrite app_assoc. apply (IH s1 s' _ H).
    + intros q Hq. destruct (Hps q (or_intror Hq)) as [HqS Hq'].
      split; [exact HqS|]. rewrite Ha1, lookup_insert_ne by congruence. exact Hq'.
    + rewrite Ha1. apply lookup_insert_eq.
Qed.

(** X4 (Node lists of applications): let the applications have distinct
    names, and let every parent of application [S] be an application that
    has no parents itself. When indexing succeeds, [apps[S]] is the list of
    Nodes of [S]'s own units, in order, followed by the Node lists of its
    parents' units, in the order of [subordinate-to]. In particular an
    application without parents maps to the Nodes of its own units. *)
Theorem app_nodes_after_indexing (g : string) (doc : status) (idx : index)
    (apps : list (string * app_info)) (S : string) (si : app_info) :
  applications doc = Some apps -> NoDup (map fst apps) -> In (S, si) apps ->
  (forall p, In p (field_get (subordinate_to si) []) ->
     exists pi, In (p, pi) apps /\ field_get (subordinate_to pi) [] = []) ->
  build_index g doc = Ok idx ->
  idx_apps idx !! S
  = Some (principal_nodes g si
          ++ List.concat (map (parent_nodes g apps)
                           (field_get (subordinate_to si) [])))%list.
Proof.
  intros Happs Hnd HS Hps Hb.
  destruct (build_index_ok g doc idx Hb)
    as (apps' & ms & idx1 & idx2 & Ha' & _ & H1 & H2 & ->).
  rewrite Happs in Ha'. injection Ha' as <-.
  rewrite (proj1 (add_machines_keep g ms idx2)).
  pose proof (principal_pass_nodes g apps idx1 Hnd H1) as Hp1.
  (* the applications without parents keep their Node lists *)
  set (Leaf := fun s : index => forall b bi, In (b, bi) apps ->
         field_get (subordinate_to bi) [] = [] ->
         idx_apps s !! b = Some (principal_nodes g bi)).
  assert (HL : forall c ci s s', In (c, ci) apps -> Leaf s ->
             add_subordinate_app apps g s (c, ci) = Ok s' -> Leaf s').
  { intros c ci s s' Hc Hs Hstep b bi Hb' Hbl.
    destruct (String.eq_dec c b) as [->|Hne].
    - rewrite (NoDup_In_fst b ci bi apps Hnd Hc Hb') in Hstep.
      rewrite (subordinate_app_leaf apps g s s' b bi Hbl Hstep). exact (Hs b bi Hb' Hbl).
    - rewrite (subordinate_app_other apps g s s' c ci b Hstep) by congruence.
      exact (Hs b bi Hb' Hbl). }
  destruct (in_split _ _ HS) as (l1 & l2 & Hsplit).
  assert (Hnd' := Hnd). rewrite Hsplit in Hnd'.
  assert (H2' : foldM (add_subordinate_app apps g) (l1 ++ (S, si) :: l2)%list idx1
                = Ok idx2) by (rewrite <- Hsplit; exact H2).
  clear H2. rename H2' into H2. rewrite foldM_app in H2.
  destruct (foldM (add_subordinate_app apps g) l1 idx1) as [sA|e] eqn:EA;
    cbn [bind] in H2; [|discriminate H2].
  change (foldM (add_subordinate_app apps g) ((S, si) :: l2) sA) with
    (let* st' := add_subordinate_app apps g sA (S, si) in
     foldM (add_subordinate_app apps g) l2 st') in H2.
  destruct (add_subordinate_app apps g sA (S, si)) as [sB|e] eqn:EB;
    cbn [bind] in H2; [|discriminate H2].
  assert (Hin : forall y, In y l1 \/ In y l2 -> In y apps).
  { intros y [Hy|Hy]; rewrite Hsplit; apply in_or_app; [left|right; right]; exact Hy. }
  assert (LA : Leaf sA).
  { apply (foldM_inv (add_subordinate_app apps g) Leaf l1) with (st := idx1);
      [| intros b bi Hb' _; exact (Hp1 b bi Hb') | exact EA].
    intros [c ci] s s' Hy Hs Hstep. exact (HL c ci s s' (Hin _ (or_introl Hy)) Hs Hstep). }
  assert (SA : idx_apps sA !! S = Some (principal_nodes g si)).
  { rewrite <- (Hp1 S si HS).
    apply (foldM_inv (add_subordinate_app apps g)
             (fun s => idx_apps s !! S = idx_apps idx1 !! S) l1) with (st := idx1);
      [| reflexivity | exact EA].
    intros [c ci] s s' Hy Hs Hstep. rewrite <- Hs.
    apply (subordinate_app_other apps g s s' c ci S Hstep).
    intros E. apply (NoDup_split_fst_l l1 l2 S si Hnd'). rewrite E.
    exact (In_fst c ci l1 Hy). }
  assert (SB : idx_apps sB !! S
               = Some (principal_nodes g si
                       ++ List.concat (map (parent_nodes g apps)
                                        (field_get (subordinate_to si) [])))%list).
  { unfold add_subordinate_app in EB.
    apply (subordinate_parents_nodes apps g S _ sA sB _ EB); [|exact SA].
    intros p Hp. destruct (Hps p Hp) as (pi & Hpi & Hpl). split.
    - intros ->. rewrite (NoDup_In_fst S pi si apps Hnd Hpi HS) in Hpl.
      rewrite Hpl in Hp. contradiction.
    - rewrite (LA p pi Hpi Hpl). unfold parent_nodes.
      rewrite (assoc_of_In p pi apps Hnd Hpi). reflexivity. }
  rewrite <- SB.
  apply (foldM_inv (add_subordinate_app apps g)
           (fun s => idx_apps s !! S = idx_apps sB !! S) l2) with (st := sB);
    [| reflexivity | exact H2].
  intros [c ci] s s' Hy Hs Hstep. rewrite <- Hs.
  apply (subordinate_app_other apps g s s' c ci S Hstep).
  intros E. apply (NoDup_split_fst l1 l2 S si Hnd'). rewrite E.
  exact (In_fst c ci l2 Hy).
Qed.

(* --------------------------------------------------------------------- *)
(** ** Missing keys in the status document *)
(* --------------------------------------------------------------------- *)

(** The only key the principal pass reads with [[...]] is ["machine"]. *)
Lemma principal_units_errors (g : string) (us : list (string * unit_info)) :
  forall st e, foldM (add_principal_unit g) us st = Err e -> e = KeyError "machine".
Proof.
  induction us as [|[u ui] us IH]; simpl; intros st e H; [discriminate H|].
  destruct st as [idx nodes]. unfold add_principal_unit at 1, field at 1 in H.
  destruct (machine ui) as [m|]; cbn [bind] in H; [exact (IH _ e H)|].
  injection H as <-. reflexivity.
Qed.

Lemma principal_pass_errors (g : string) (apps : list (string * app_info)) :
  forall idx e, foldM (add_principal_app g) apps idx = Err e -> e = KeyError "machine".
Proof.
  induction apps as [|[a ai] apps IH]; simpl; intros idx e H; [discriminate H|].
  unfold add_principal_app at 1 in H.
  destruct (foldM (add_principal_unit g) (field_get (units ai) []) (idx, []))
    as [[i n]|e'] eqn:E; cbn [bind] in H; [exact (IH _ e H)|].
  injection H as <-. exact (principal_units_errors g _ _ e' E).
Qed.

Lemma principal_pass_fails (g : string) (apps : list (string * app_info))
    (a : string) (ai : app_info) (u : string) (ui : unit_info) :
  In (a, ai) apps -> In (u, ui) (field_get (units ai) []) -> machine ui = None ->
  forall idx, exists e, foldM (add_principal_app g) apps idx = Err e.
Proof.
  intros Ha Hu Hm. apply (foldM_fails _ apps (a, ai) Ha).
  intros st. unfold add_principal_app.
  destruct (foldM_fails (add_principal_unit g) _ (u, ui) Hu) with (st := (st, @nil string))
    as [e He].
  - intros [i n]. exists (KeyError "machine"). unfold add_principal_unit, field.
    rewrite Hm. reflexivity.
  - rewrite He. exists e. reflexivity.
Qed.

(** X5 (missing keys): a document without ["applications"] raises
    [KeyError('applications')]; a document where some unit of some
    application has no ["machine"] raises [KeyError('machine')] during the
    principal pass, before the other passes run. *)
Theorem missing_key_errors (g : string) (doc : status) :
  (applications doc = None -> build_index g doc = Err (KeyError "applications"))
  /\ (forall apps a ai u ui, applications doc = Some apps -> In (a, ai) apps ->
        In (u, ui) (field_get (units ai) []) -> machine ui = None ->
        build_index g doc = Err (KeyError "machine")).
Proof.
  split.
  - intros H. unfold build_index, _add_principals_to_index. rewrite H. reflexivity.
  - intros apps a ai u ui Happs Ha Hu Hm.
    unfold build_index, _add_principals_to_index. rewrite Happs. cbn [field bind].
    destruct (principal_pass_fails g apps a ai u ui Ha Hu Hm empty_index) as [e He].
    rewrite He. cbn [bind]. rewrite (principal_pass_errors g apps empty_index e He).
    reflexivity.
Qed.

(* --------------------------------------------------------------------- *)
(** ** The [machines] category *)
(* --------------------------------------------------------------------- *)

Lemma principal_unit_machines (g : string) (st st' : index * list string)
    (u : string) (ui : unit_info) :
  add_principal_unit g st (u, ui) = Ok st' ->
  exists mu, machine ui = Some mu
    /\ idx_machines (fst st') = <[mu := [node_of g mu]]> (idx_machines (fst st)).
Proof.
  destruct st as [idx nodes]. unfold add_principal_unit, field.
  destruct (machine ui) as [mu|]; [|discriminate].
  intros H. injection H as <-. exists mu. auto.
Qed.

Lemma subordinate_keys_machines (app node : string) (subs : list string) :
  forall idx, idx_machines (fold_left (add_subordinate_key app node) subs idx)
              = idx_machines idx.
Proof.
  induction subs as [|sk subs IH]; intros idx; [reflexivity|]. simpl.
  rewrite IH. unfold add_subordinate_key.
  destruct (String.prefix (app +:+ "/") sk); reflexivity.
Qed.

(** The subordinate pass leaves [machines] alone. *)
Lemma subordinate_pass_machines (apps : list (string * app_info)) (g : string)
    (l : list (string * app_info)) (idx idx' : index) :
  foldM (add_subordinate_app apps g) l idx = Ok idx' ->
  idx_machines idx' = idx_machines idx.
Proof.
  intros H.
  apply (foldM_inv (add_subordinate_app apps g)
           (fun s => idx_machines s = idx_machines idx) l) with (st := idx);
    [| reflexivity | exact H].
  intros [b bi] s s' _ Hs Hstep. unfold add_subordinate_app in Hstep.
  rewrite <- Hs.
  apply (foldM_inv (add_subordinate_parent apps g b)
           (fun t => idx_machines t = idx_machines s)
           (field_get (subordinate_to bi) [])) with (st := s);
    [| reflexivity | exact Hstep].
  intros p t t' _ Ht Hp.
  destruct (subordinate_parent_step apps g b p t t' Hp)
    as (an & pn & pi & us & _ & _ & _ & _ & Hf).
  rewrite <- Ht.
  apply (foldM_inv (add_subordinate_unit g b)
           (fun w => idx_machines w = idx_machines t) us) with
    (st := set_apps (<[b := (an ++ pn)%list]> (idx_apps t)) t);
    [| reflexivity | exact Hf].
  intros [u ui] w w' _ Hw Hu.
  destruct (subordinate_unit_step g b w w' u ui Hu) as (mu & _ & ->).
  rewrite subordinate_keys_machines. exact Hw.
Qed.

(** After the principal pass, [machines] holds the machines of the units,
    each mapped to its own Node. *)
Lemma principal_pass_machines (g : string) (apps : list (string * app_info))
    (idx1 : index) :
  foldM (add_principal_app g) apps empty_index = Ok idx1 ->
  forall k, (forall v, idx_machines idx1 !! k = Some v ->
               v = [node_of g k] /\ unit_machine apps k)
            /\ (unit_machine apps k -> is_Some (idx_machines idx1 !! k)).
Proof.
  intros H k. split.
  - apply (foldM_inv (add_principal_app g)
             (fun s => forall v, idx_machines s !! k = Some v ->
                         v = [node_of g k] /\ unit_machine apps k) apps)
      with (st := empty_index); [| | exact H].
    + intros [a ai] s s' Ha Hs Hstep.
      destruct (principal_app_step g s s' a ai Hstep) as [st [Hf ->]].
      simpl.
      apply (foldM_inv (add_principal_unit g)
               (fun t => forall v, idx_machines (fst t) !! k = Some v ->
                           v = [node_of g k] /\ unit_machine apps k)
               (field_get (units ai) [])) with (st := (s, [])); [| exact Hs | exact Hf].
      intros [u ui] t t' Hu Ht Hstep'.
      destruct (principal_unit_machines g t t' u ui Hstep') as (mu & Hm & ->).
      intros v Hv. destruct (String.eq_dec mu k) as [->|Hne].
      * rewrite lookup_insert_eq in Hv. injection Hv as <-. split; [reflexivity|].
        exists a, ai, u, ui. auto.
      * rewrite lookup_insert_ne in Hv by exact Hne. exact (Ht v Hv).
    + intros v Hv. simpl in Hv. rewrite lookup_empty in Hv. discriminate Hv.
  - intros (a & ai & u & ui & Ha & Hu & Hm).
    set (P := fun s : index => is_Some (idx_machines s !! k)).
    assert (Hkeep : forall us t t', foldM (add_principal_unit g) us t = Ok t' ->
              P (fst t) -> P (fst t')).
    { intros us t t' Hf Ht.
      apply (foldM_inv (add_principal_unit g) (fun w => P (fst w)) us) with (st := t);
        [| exact Ht | exact Hf].
      intros [u' ui'] w w' _ Hw Hs.
      destruct (principal_unit_machines g w w' u' ui' Hs) as (mu & _ & E).
      unfold P. rewrite E. destruct (String.eq_dec mu k) as [->|Hne].
      - rewrite lookup_insert_eq. eauto.
      - rewrite lookup_insert_ne by exact Hne. exact Hw. }
    eapply (foldM_reach (add_principal_app g) (fun _ => True) P apps (a, ai));
      [auto | | | exact Ha | exact I | exact H].
    + intros s s' _ Hs.
      destruct (principal_app_step g s s' a ai Hs) as [st [Hf ->]].
      unfold P. simpl.
      eapply (foldM_reach (add_principal_unit g) (fun _ => True)
                (fun w => P (fst w)) _ (u, ui));
        [auto | | | exact Hu | exact I | exact Hf].
      * intros w w' _ Hw.
        destruct (principal_unit_machines g w w' u ui Hw) as (mu & Hm' & E).
        rewrite Hm in Hm'. injection Hm' as <-. unfold P. rewrite E.
        rewrite lookup_insert_eq. eauto.
      * intros y w w' _ _ Hw Hs'. destruct y as [u' ui'].
        exact (Hkeep [(u', ui')] w w' ltac:(simpl; rewrite Hs'; reflexivity) Hw).
    + intros [b bi] s s' _ _ Hs Hstep.
      destruct (principal_app_step g s s' b bi Hstep) as [st [Hf ->]].
      exact (Hkeep _ (s, []) st Hf Hs).
Qed.

Lemma machines_index_facts (g : string) (doc : status) (idx : index)
    (apps : list (string * app_info)) :
  applications doc = Some apps -> build_index g doc = Ok idx ->
  forall k, (forall v, idx_machines idx !! k = Some v -> v = [node_of g k])
  /\ (is_Some (idx_machines idx !! k)
      <-> In k (field_get (machines doc) []) \/ unit_machine apps k).
Proof.
  intros Happs Hb k.
  destruct (build_index_ok g doc idx Hb)
    as (apps' & ms & idx1 & idx2 & Ha' & Hms & H1 & H2 & ->).
  rewrite Happs in Ha'. injection Ha' as <-. rewrite Hms. simpl.
  destruct (principal_pass_machines g apps idx1 H1 k) as [Hv Hd].
  pose proof (subordinate_pass_machines apps g apps idx1 idx2 H2) as E2.
  destruct (in_dec string_dec k ms) as [Hin|Hout].
  - rewrite (add_machines_set g ms k Hin). split.
    + intros v Hv'. injection Hv' as <-. reflexivity.
    + split; [auto | eauto].
  - rewrite (add_machines_other g ms k Hout), E2. split.
    + intros v Hv'. exact (proj1 (Hv v Hv')).
    + split.
      * intros [v Hv']. right. exact (proj2 (Hv v Hv')).
      * intros [H|H]; [contradiction | exact (Hd H)].
Qed.

(** X6 (the [machines] category): when indexing succeeds, every machine
    key [k] maps to the single Node [g:k], and the keys are exactly the
    machines listed under ["machines"] and the machines of the units of
    the applications. *)
Theorem machines_index_spec (g : string) (doc : status) (idx : index)
    (apps : list (string * app_info)) :
  applications doc = Some apps -> build_index g doc = Ok idx ->
  forall k, (forall v, idx_machines idx !! k = Some v -> v = [node_of g k])
  /\ (is_Some (idx_machines idx !! k)
      <-> In k (field_get (machines doc) []) \/ unit_machine apps k).
Proof. exact (machines_index_facts g doc idx apps). Qed.

(** X7 (filtering by machines): when indexing succeeds, the machine
    filter with terms [terms] selects exactly the Nodes [g:m] for the terms
    [m] that the document names as a machine, under ["machines"] or as the
    machine of a unit. *)
Theorem machines_filter_spec (g : string) (doc : status) (idx : index)
    (apps : list (string * app_info)) :
  applications doc = Some apps -> build_index g doc = Ok idx ->
  forall terms n, n ∈ _filter_by_fixed Machines terms idx <->
    exists m, In m terms /\ n = node_of g m
      /\ (In m (field_get (machines doc) []) \/ unit_machine apps m).
Proof.
  intros Happs Hb terms n. rewrite fixed_filter_spec. simpl. split.
  - intros (m & ns & Hm & Hl & Hn).
    destruct (machines_index_facts g doc idx apps Happs Hb m) as [Hv Hd].
    rewrite (Hv ns Hl) in Hn. destruct Hn as [<-|[]].
    exists m. split; [exact Hm|]. split; [reflexivity|]. apply Hd. eauto.
  - intros (m & Hm & -> & Hdm).
    destruct (machines_index_facts g doc idx apps Happs Hb m) as [Hv Hd].
    destruct (proj2 Hd Hdm) as [v Hl].
    exists m, v. split; [exact Hm|]. split; [exact Hl|].
    rewrite (Hv v Hl). left. reflexivity.
Qed.

(* --------------------------------------------------------------------- *)
(** ** The [units] category *)
(* --------------------------------------------------------------------- *)

Lemma units_origin_invariant (g : string) (doc : status) (idx : index)
    (apps : list (string * app_info)) :
  applications doc = Some apps -> build_index g doc = Ok idx ->
  forall k v, idx_units idx !! k = Some v -> unit_origin g apps k v.
Proof.
  intros Happs Hb.
  destruct (build_index_ok g doc idx Hb)
    as (apps' & ms & idx1 & idx2 & Ha' & _ & H1 & H2 & ->).
  rewrite Happs in Ha'. injection Ha' as <-.
  rewrite (proj2 (add_machines_keep g ms idx2)).
  set (U := fun s : index => forall k v, idx_units s !! k = Some v ->
              unit_origin g apps k v).
  assert (U1 : U idx1).
  { apply (foldM_inv (add_principal_app g) U apps) with (st := empty_index);
      [| | exact H1].
    - intros [a ai] s s' Ha Hs Hstep.
      destruct (principal_app_step g s s' a ai Hstep) as [st [Hf ->]].
      apply (foldM_inv (add_principal_unit g) (fun t => U (fst t))
               (field_get (units ai) [])) with (st := (s, [])); [| exact Hs | exact Hf].
      intros [u ui] t t' Hu Ht Hstep' k v Hv.
      destruct (principal_unit_step g t t' u ui Hstep') as (mu & Hm & _ & E & _).
      rewrite E in Hv. destruct (String.eq_dec u k) as [->|Hne].
      + rewrite lookup_insert_eq in Hv. injection Hv as <-.
        exists a, ai, k, ui, mu. auto 6.
      + rewrite lookup_insert_ne in Hv by exact Hne. exact (Ht k v Hv).
    - intros k v Hv. simpl in Hv. rewrite lookup_empty in Hv. discriminate Hv. }
  apply (foldM_inv (add_subordinate_app apps g) U apps) with (st := idx1);
    [| exact U1 | exact H2].
  intros [b bi] s s' Hbi Hs Hstep. unfold add_subordinate_app in Hstep.
  apply (foldM_inv (add_subordinate_parent apps g b) U
           (field_get (subordinate_to bi) [])) with (st := s); [| exact Hs | exact Hstep].
  intros p t t' Hp Ht Hpar.
  destruct (subordinate_parent_step apps g b p t t' Hpar)
    as (an & pn & pi & us & _ & _ & Hpi & Hus & Hf).
  apply assoc_In in Hpi.
  apply (foldM_inv (add_subordinate_unit g b) U us) with
    (st := set_apps (<[b := (an ++ pn)%list]> (idx_apps t)) t); [| exact Ht | exact Hf].
  intros [u ui] w w' Hu Hw Hsu k v Hv.
  destruct (subordinate_unit_step g b w w' u ui Hsu) as (mu & Hm & ->).
  rewrite subordinate_keys_units in Hv.
  destruct (existsb (String.eqb k) (field_get (subordinates ui) [])
            && String.prefix (b +:+ "/") k) eqn:E; [|exact (Hw k v Hv)].
  injection Hv as <-. apply andb_true_iff in E as [Ek Ep].
  apply existsb_exists in Ek as [k' [Hk' Ek]]. apply String.eqb_eq in Ek. subst k'.
  exists p, pi, u, ui, mu. split; [exact Hpi|]. split; [rewrite Hus; exact Hu|].
  split; [exact Hm|]. split; [reflexivity|]. right. split; [exact Hk'|].
  exists b, bi. auto.
Qed.

(** X8 (the [units] category): when indexing succeeds, every entry
    [units[k]] is the single Node [g:x] of a unit [u] on machine [x] of some
    application [a], and [k] is either [u] itself or a subordinate listed
    by [u] whose name starts with ["S/"] for an application [S] that has
    [a] among its parents. *)
Theorem units_index_origin (g : string) (doc : status) (idx : index)
    (apps : list (string * app_info)) :
  applications doc = Some apps -> build_index g doc = Ok idx ->
  forall k v, idx_units idx !! k = Some v -> unit_origin g apps k v.
Proof. exact (units_origin_invariant g doc idx apps). Qed.

(* --------------------------------------------------------------------- *)
(** ** Every Node of the index is [g:x] for a machine of the document *)
(* --------------------------------------------------------------------- *)

Lemma apps_nodes_invariant (g : string) (doc : status) (idx : index)
    (apps : list (string * app_info)) :
  applications doc = Some apps -> build_index g doc = Ok idx ->
  forall k v n, idx_apps idx !! k = Some v -> In n v ->
  exists x, n = node_of g x /\ unit_machine apps x.
Proof.
  intros Happs Hb.
  destruct (build_index_ok g doc idx Hb)
    as (apps' & ms & idx1 & idx2 & Ha' & _ & H1 & H2 & ->).
  rewrite Happs in Ha'. injection Ha' as <-.
  rewrite (proj1 (add_machines_keep g ms idx2)).
  set (Good := fun n => exists x, n = node_of g x /\ unit_machine apps x).
  set (A := fun s : index => forall k v n, idx_apps s !! k = Some v -> In n v -> Good n).
  assert (A1 : A idx1).
  { apply (foldM_inv (add_principal_app g) A apps) with (st := empty_index);
      [| | exact H1].
    - intros [a ai] s s' Ha Hs Hstep.
      destruct (principal_app_step g s s' a ai Hstep) as [st [Hf ->]].
      assert (Hst : A (fst st) /\ forall n, In n (snd st) -> Good n).
      { apply (foldM_inv (add_principal_unit g)
                 (fun t => A (fst t) /\ forall n, In n (snd t) -> Good n)
                 (field_get (units ai) [])) with (st := (s, [])); [| | exact Hf].
        - intros [u ui] t t' Hu [Ht1 Ht2] Hstep'.
          destruct (principal_unit_step g t t' u ui Hstep')
            as (mu & Hm & Ea & _ & En). split.
          + intros k v n Hv. rewrite Ea in Hv. exact (Ht1 k v n Hv).
          + intros n Hn. rewrite En in Hn. apply in_app_or in Hn as [Hn|[<-|[]]];
              [exact (Ht2 n Hn)|].
            exists mu. split; [reflexivity|]. exists a, ai, u, ui. auto.
        - split; [exact Hs | intros n []]. }
      destruct Hst as [Hst1 Hst2]. intros k v n Hv Hn. simpl in Hv.
      destruct (String.eq_dec a k) as [->|Hne].
      + rewrite lookup_insert_eq in Hv. injection Hv as <-. exact (Hst2 n Hn).
      + rewrite lookup_insert_ne in Hv by exact Hne. exact (Hst1 k v n Hv Hn).
    - intros k v n Hv. simpl in Hv. rewrite lookup_empty in Hv. discriminate Hv. }
  apply (foldM_inv (add_subordinate_app apps g) A apps) with (st := idx1);
    [| exact A1 | exact H2].
  intros [b bi] s s' _ Hs Hstep. unfold add_subordinate_app in Hstep.
  apply (foldM_inv (add_subordinate_parent apps g b) A
           (field_get (subordinate_to bi) [])) with (st := s); [| exact Hs | exact Hstep].
  intros p t t' _ Ht Hpar.
  destruct (subordinate_parent_step apps g b p t t' Hpar)
    as (an & pn & pi & us & Han & Hpn & _ & _ & Hf).
  intros k v n Hv Hn. rewrite (subordinate_units_keep_apps g b us _ _ Hf) in Hv.
  simpl in Hv. destruct (String.eq_dec b k) as [->|Hne].
  - rewrite lookup_insert_eq in Hv. injection Hv as <-.
    apply in_app_or in Hn as [Hn|Hn]; [exact (Ht k an n Han Hn) | exact (Ht p pn n Hpn Hn)].
  - rewrite lookup_insert_ne in Hv by exact Hne. exact (Ht k v n Hv Hn).
Qed.

Lemma index_nodes_from (g : string) (doc : status) (idx : index) :
  build_index g doc = Ok idx -> nodes_from g (doc_machine doc) idx.
Proof.
  intros Hb.
  destruct (build_index_ok g doc idx Hb) as (apps & ms & idx1 & idx2 & Happs & _).
  intros cat k v n Hv Hn. destruct cat; simpl in Hv.
  - destruct (apps_nodes_invariant g doc idx apps ltac:(assumption) Hb k v n Hv Hn)
      as (x & -> & Hx).
    exists x. split; [reflexivity|]. right. eauto.
  - destruct (units_origin_invariant g doc idx apps ltac:(assumption) Hb k v Hv)
      as (a & ai & u & ui & x & Ha & Hu & Hm & -> & _).
    destruct Hn as [<-|[]]. exists x. split; [reflexivity|]. right.
    exists apps. split; [assumption|]. exists a, ai, u, ui. auto.
  - destruct (machines_index_facts g doc idx apps ltac:(assumption) Hb k) as [Hval Hdom].
    rewrite (Hval v Hv) in Hn. destruct Hn as [<-|[]].
    exists k. split; [reflexivity|].
    destruct (proj1 Hdom (mk_is_Some _ _ Hv)) as [H|H]; [left; exact H|].
    right. eauto.
Qed.

(** Both filters select Nodes stored in the index. *)
Lemma pattern_filter_values (re_match : string -> string -> result bool)
    (key : category) (terms : list string)
    (idx : index) (r : gset string) (n : string) :
  _filter_by_pattern re_match key terms idx = Ok r -> n ∈ r ->
  exists name ns, category_map key idx !! name = Some ns /\ In n ns.
Proof.
  intros H Hn.
  apply (pattern_filter_spec re_match key terms idx r H n) in Hn
    as (term & name & ns & _ & Hl & _ & Hn).
  eauto.
Qed.

(* --------------------------------------------------------------------- *)
(** ** [get_nodes]: the Nodes collected over the models *)
(* --------------------------------------------------------------------- *)

Section GetNodes.
Variable exec_primary_cmd : string -> exec_result.
Variable json_loads : string -> result status.
Variable re_match : string -> string -> result bool.

Lemma model_step_members (apps units machines : list string)
    (nodes nodes' : gset string) (model : string) :
  model_step exec_primary_cmd json_loads re_match
    [(Apps, apps); (Units, units); (Machines, machines)] nodes model = Ok nodes' ->
  forall n, n ∈ nodes' <-> n ∈ nodes \/ selected exec_primary_cmd json_loads re_match apps units machines model n.
Proof.
  unfold model_step, selected.
  destruct (_get_model_info exec_primary_cmd json_loads model) as [idx|e] eqn:Ei;
    cbn [bind]; [|discriminate].
  destruct (any_filter [(Apps, apps); (Units, units); (Machines, machines)]) eqn:Ef;
    simpl negb; cbv iota.
  - rewrite (filter_dispatch re_match).
    destruct (_filter_by_pattern re_match Apps apps idx) as [pa|e] eqn:Ep; cbn [bind];
      [|discriminate].
    intros H n. injection H as <-. rewrite !elem_of_union. split.
    + intros [[[Hn|Hn]|Hn]|Hn]; [left; exact Hn|right; exists idx, pa; tauto ..].
    + intros [Hn|(idx' & pa' & Ei' & _ & Ep' & Hn)]; [tauto|].
      injection Ei' as <-. rewrite Ep in Ep'. injection Ep' as <-. tauto.
  - intros H n. injection H as <-. split; [tauto|].
    intros [Hn|(idx' & pa' & _ & Hf & _)]; [exact Hn|congruence].
Qed.

Lemma models_loop_members (apps units machines : list string)
    (models : list string) (nodes : gset string) :
  foldM (model_step exec_primary_cmd json_loads re_match
           [(Apps, apps); (Units, units); (Machines, machines)]) models ∅
  = Ok nodes ->
  forall n, n ∈ nodes <->
    exists model, In model models /\ selected exec_primary_cmd json_loads re_match apps units machines model n.
Proof.
  intros H n. split.
  - revert n.
    apply (foldM_inv (model_step exec_primary_cmd json_loads re_match
             [(Apps, apps); (Units, units); (Machines, machines)])
             (fun s => forall n, n ∈ s ->
             exists model, In model models /\ selected exec_primary_cmd json_loads re_match apps units machines model n)
             models) with (st := ∅); [| |exact H].
    + intros y s s' Hy Hs Hstep n Hn.
      apply (model_step_members apps units machines s s' y Hstep n) in Hn
        as [Hn|Hn]; [exact (Hs n Hn)|exists y; auto].
    + intros n Hn. apply not_elem_of_empty in Hn. contradiction.
  - intros [model [Hin Hsel]].
    apply (foldM_reach (model_step exec_primary_cmd json_loads re_match
             [(Apps, apps); (Units, units); (Machines, machines)]) (fun _ => True) (fun s => n ∈ s) models model)
      with (st := ∅); auto.
    + intros st st' _ Hstep.
      apply (model_step_members apps units machines st st' model Hstep n). auto.
    + intros y st st' _ _ Hn Hstep.
      apply (model_step_members apps units machines st st' y Hstep n). auto.
Qed.

Lemma get_nodes_members (om oa ou oma : option string) (l : list string) :
  get_nodes exec_primary_cmd json_loads re_match om oa ou oma = Ok l ->
  NoDup l /\
  forall n, In n l <->
    exists model, In model (default_models (_parse_option_string om))
      /\ selected exec_primary_cmd json_loads re_match (_parse_option_string oa) (_parse_option_string ou)
                  (_parse_option_string oma) model n.
Proof.
  unfold get_nodes.
  destruct (foldM _ _ ∅) as [nodes|e] eqn:E; cbn [bind]; [|discriminate].
  intros H. injection H as <-. split; [apply NoDup_elements|].
  intros n. rewrite <- list_elem_of_In, elem_of_elements.
  exact (models_loop_members _ _ _ _ nodes E n).
Qed.

End GetNodes.

(** X9 ([get_nodes] collects over the models): when [get_nodes] returns a
    list, it has no duplicates, and a Node is in it exactly when, for some
    requested model (the current one [""] when none is given), the model's
    status was indexed, some filter is non-empty, the [apps] patterns all
    compiled, and the Node is selected by the [apps] patterns or by the
    [units] or [machines] names of that model. *)
Theorem get_nodes_union (exec_primary_cmd : string -> exec_result)
    (json_loads : string -> result status)
    (re_match : string -> string -> result bool)
    (om oa ou oma : option string) (l : list string) :
  get_nodes exec_primary_cmd json_loads re_match om oa ou oma = Ok l ->
  NoDup l /\
  forall n, In n l <->
    exists model, In model (default_models (_parse_option_string om))
      /\ selected exec_primary_cmd json_loads re_match
                  (_parse_option_string oa)
                  (_parse_option_string ou) (_parse_option_string oma) model n.
Proof. exact (get_nodes_members exec_primary_cmd json_loads re_match om oa ou oma l). Qed.

(** X10 (what [get_nodes] returns): every Node in the list is
    [f"{model}:{machine}"] for a requested model whose [juju status] ran
    without error and a machine that this status lists under [machines] or
    that one of its units runs on. *)
Theorem get_nodes_model_machines (exec_primary_cmd : string -> exec_result)
    (json_loads : string -> result status)
    (re_match : string -> string -> result bool)
    (om oa ou oma : option string) (l : list string) :
  get_nodes exec_primary_cmd json_loads re_match om oa ou oma = Ok l ->
  forall n, In n l ->
    exists model doc x, In model (default_models (_parse_option_string om))
      /\ _execute_juju_status exec_primary_cmd json_loads model = Ok doc
      /\ n = node_of model x /\ doc_machine doc x.
Proof.
  intros H n Hn.
  destruct (get_nodes_members exec_primary_cmd json_loads re_match om oa ou oma l H)
    as [_ Hmem].
  destruct (proj1 (Hmem n) Hn) as (model & Hm & idx & pa & Ei & _ & Ep & Hsel).
  unfold _get_model_info in Ei.
  destruct (_execute_juju_status exec_primary_cmd json_loads model) as [doc|e]
    eqn:Ed; cbn [bind] in Ei; [|discriminate].
  assert (Hfrom := index_nodes_from model doc idx Ei).
  assert (Hval : exists cat k v, category_map cat idx !! k = Some v /\ In n v).
  { destruct Hsel as [Hs|[Hs|Hs]].
    - destruct (pattern_filter_values re_match Apps _ idx pa n Ep Hs) as (k & v & Hk & Hv).
      exists Apps, k, v. auto.
    - apply fixed_filter_spec in Hs as (k & v & _ & Hk & Hv).
      exists Units, k, v. auto.
    - apply fixed_filter_spec in Hs as (k & v & _ & Hk & Hv).
      exists Machines, k, v. auto. }
  destruct Hval as (cat & k & v & Hk & Hv).
  destruct (Hfrom cat k v n Hk Hv) as (x & -> & Hx).
  exists model, doc, x. auto.
Qed.

(* --------------------------------------------------------------------- *)
(** ** The pattern filter: invalid and literal patterns *)
(* --------------------------------------------------------------------- *)

Lemma pattern_inner_err (re_match : string -> string -> result bool)
    (pattern : string) (items : list (string * list string))
    (acc : gset string) (e : exn) :
  items <> [] -> (forall s, re_match pattern s = Err e) ->
  foldM (pattern_update re_match pattern) items acc = Err e.
Proof.
  destruct items as [|pv items]; [congruence|]. intros _ Hp.
  simpl. unfold pattern_update at 1. rewrite Hp. reflexivity.
Qed.

(** X11 ([re.error] in the pattern filter): over an empty category the
    pattern filter returns the empty set whatever its terms, even terms on
    which [re.match] raises; over a non-empty category, a term on which
    [re.match] raises [e] whatever the name (a pattern that does not
    compile) makes the filter raise [e], when [re.match] does not raise on
    the terms before it. *)
Theorem pattern_filter_errors (re_match : string -> string -> result bool)
    (key : category) (idx : index) :
  (forall terms, category_map key idx = ∅ ->
     _filter_by_pattern re_match key terms idx = Ok ∅)
  /\ (forall pre q post e, category_map key idx <> ∅ ->
        Forall (fun t => forall s, exists b, re_match t s = Ok b) pre ->
        (forall s, re_match q s = Err e) ->
        _filter_by_pattern re_match key (pre ++ q :: post)%list idx = Err e).
Proof.
  unfold _filter_by_pattern. split.
  - intros terms He. rewrite He, map_to_list_empty.
    assert (H : forall acc : gset string,
      foldM (fun nodes pattern => foldM (pattern_update re_match pattern) [] nodes)
            terms acc = Ok acc).
    { induction terms as [|t terms IH]; intros acc; [reflexivity|].
      simpl. apply IH. }
    apply H.
  - intros pre q post e Hne Hpre Hq.
    assert (Hitems : map_to_list (category_map key idx) <> []).
    { intros E. apply map_to_list_empty_iff in E. contradiction. }
    generalize (∅ : gset string). induction Hpre as [|t pre Ht Hpre IH]; intros acc.
    + simpl. rewrite (pattern_inner_err re_match q _ acc e Hitems Hq). reflexivity.
    + destruct (pattern_inner_ok re_match t (map_to_list (category_map key idx)) Ht acc)
        as [r Hr].
      simpl. rewrite Hr. cbn [bind]. apply IH.
Qed.

(** X12 (literal pattern terms): with Python's [re.match] on literal terms
    ([literal_semantics]), when no term has a character special to [re],
    the pattern filter does not raise, and it selects exactly the Nodes of
    the names that start with one of the terms. *)
Theorem plain_terms_prefix (re_match : string -> string -> result bool)
    (key : category) (terms : list string) (idx : index) :
  literal_semantics re_match ->
  Forall (fun t => plain_term t = true) terms ->
  exists r, _filter_by_pattern re_match key terms idx = Ok r /\
    forall n, n ∈ r <->
      exists term name ns, In term terms
        /\ category_map key idx !! name = Some ns
        /\ String.prefix term name = true /\ In n ns.
Proof.
  intros Hlit Hplain.
  apply (prefix_terms_select re_match (fun t => t)).
  intros t s Ht. rewrite Forall_forall in Hplain.
  exact (proj1 (Hlit t s (Hplain t (proj2 (list_elem_of_In _ _) Ht)))).
Qed.

(* --------------------------------------------------------------------- *)
(** ** Witnesses of the further properties *)
(* --------------------------------------------------------------------- *)

Lemma app_nodes_after_indexing_witness :
  exists idx, build_index "g" doc_two_parents = Ok idx
    /\ idx_apps idx !! "S" = Some [node_of "g" "3"; node_of "g" "4"].
Proof.
  destruct (build_index "g" doc_two_parents) as [idx|e] eqn:Hb;
    [|vm_compute in Hb; discriminate Hb].
  exists idx. split; [reflexivity|].
  rewrite (app_nodes_after_indexing "g" doc_two_parents idx
             (field_get (applications doc_two_parents) []) "S"
             {| units := None; subordinate_to := Some ["P"; "Q"] |}).
  - reflexivity.
  - reflexivity.
  - apply (bool_decide_unpack _). vm_compute. reflexivity.
  - simpl. right; right; left; reflexivity.
  - intros p Hp. simpl in Hp. destruct Hp as [<-|[<-|[]]].
    + eexists. split; [simpl; left; reflexivity | reflexivity].
    + eexists. split; [simpl; right; left; reflexivity | reflexivity].
  - exact Hb.
Defined.

Lemma machines_index_spec_witness :
  exists idx, build_index "g" doc_ab = Ok idx
    /\ forall k, (forall v, idx_machines idx !! k = Some v -> v = [node_of "g" k])
       /\ (is_Some (idx_machines idx !! k)
           <-> In k (field_get (machines doc_ab) [])
               \/ unit_machine (field_get (applications doc_ab) []) k).
Proof.
  destruct (build_index "g" doc_ab) as [idx|e] eqn:Hb;
    [|vm_compute in Hb; discriminate Hb].
  exists idx. split; [reflexivity|].
  exact (machines_index_spec "g" doc_ab idx _ eq_refl Hb).
Defined.

Lemma machines_filter_spec_witness :
  exists idx, build_index "g" doc_ab = Ok idx
    /\ forall terms n, n ∈ _filter_by_fixed Machines terms idx <->
       exists m, In m terms /\ n = node_of "g" m
         /\ (In m (field_get (machines doc_ab) [])
             \/ unit_machine (field_get (applications doc_ab) []) m).
Proof.
  destruct (build_index "g" doc_ab) as [idx|e] eqn:Hb;
    [|vm_compute in Hb; discriminate Hb].
  exists idx. split; [reflexivity|].
  exact (machines_filter_spec "g" doc_ab idx _ eq_refl Hb).
Defined.

Lemma units_index_origin_witness :
  exists idx, build_index "g" doc_ab = Ok idx
    /\ forall k v, idx_units idx !! k = Some v ->
       unit_origin "g" (field_get (applications doc_ab) []) k v.
Proof.
  destruct (build_index "g" doc_ab) as [idx|e] eqn:Hb;
    [|vm_compute in Hb; discriminate Hb].
  exists idx. split; [reflexivity|].
  exact (units_index_origin "g" doc_ab idx _ eq_refl Hb).
Defined.

Lemma get_nodes_union_witness :
  get_nodes (fun _ => {| res_status := 0%Z; res_output := "{}" |})
    (fun _ => Ok doc_ab) sample_match (Some "m") (Some "A") None None = Ok [node_of "m" "1"]
  /\ NoDup [node_of "m" "1"]
  /\ forall n, In n [node_of "m" "1"] <->
     exists model, In model (default_models (_parse_option_string (Some "m")))
       /\ selected (fun _ => {| res_status := 0%Z; res_output := "{}" |})
            (fun _ => Ok doc_ab) sample_match (_parse_option_string (Some "A"))
            (_parse_option_string None) (_parse_option_string None) model n.
Proof.
  assert (Hg : get_nodes (fun _ => {| res_status := 0%Z; res_output := "{}" |})
    (fun _ => Ok doc_ab) sample_match (Some "m") (Some "A") None None = Ok [node_of "m" "1"])
    by (vm_compute; reflexivity).
  split; [exact Hg|]. exact (get_nodes_union _ _ _ _ _ _ _ _ Hg).
Defined.

Lemma get_nodes_model_machines_witness :
  get_nodes (fun _ => {| res_status := 0%Z; res_output := "{}" |})
    (fun _ => Ok doc_ab) sample_match (Some "m") None (Some "B/0") None = Ok [node_of "m" "1"]
  /\ forall n, In n [node_of "m" "1"] ->
     exists model doc x, In model (default_models (_parse_option_string (Some "m")))
       /\ _execute_juju_status (fun _ => {| res_status := 0%Z; res_output := "{}" |})
            (fun _ => Ok doc_ab) model = Ok doc
       /\ n = node_of model x /\ doc_machine doc x.
Proof.
  assert (Hg : get_nodes (fun _ => {| res_status := 0%Z; res_output := "{}" |})
    (fun _ => Ok doc_ab) sample_match (Some "m") None (Some "B/0") None = Ok [node_of "m" "1"])
    by (vm_compute; reflexivity).
  split; [exact Hg|]. exact (get_nodes_model_machines _ _ _ _ _ _ _ _ Hg).
Defined.

Lemma plain_terms_prefix_witness :
  exists idx, build_index "g" doc_two_parents = Ok idx
    /\ exists r, _filter_by_pattern sample_match Apps ["P"; "S"] idx = Ok r /\
       forall n, n ∈ r <->
         exists term name ns, In term ["P"; "S"]
           /\ category_map Apps idx !! name = Some ns
           /\ String.prefix term name = true /\ In n ns.
Proof.
  destruct (build_index "g" doc_two_parents) as [idx|e] eqn:Hb;
    [|vm_compute in Hb; discriminate Hb].
  exists idx. split; [reflexivity|].
  apply (plain_terms_prefix sample_match Apps ["P"; "S"] idx sample_match_literal).
  repeat constructor.
Defined.
